(** * azure_loader: the S3-to-Azure copy pipeline of [main.go]

    A shallow embedding of the loader: the Go values it manipulates
    (64-bit ints, error interface values, strings as byte sequences), the
    library functions it calls on them ([url.QueryUnescape],
    [strings.ReplaceAll]), the [AzureTier] flag, [CopyFile], and the three
    kinds of goroutines (the reader of [readerLoop], the [DoCopy] workers
    and the aggregating loop of [main]) as an interleaving step function
    over the two channels. *)

From Stdlib Require Import ZArith Ascii String Bool Lia.
From stdpp Require Import base relations list strings.

Open Scope Z_scope.

(** ** Go values *)

Module Go.

(** Go's [int] on the 64-bit targets: two's complement, wraps silently. *)
Definition wrap64 (z : Z) : Z := (z + 2 ^ 63) mod 2 ^ 64 - 2 ^ 63.
Definition add64 (a b : Z) : Z := wrap64 (a + b).
Definition sub64 (a b : Z) : Z := wrap64 (a - b).
Definition mul64 (a b : Z) : Z := wrap64 (a * b).
Definition max_int : Z := 2 ^ 63 - 1.
Definition min_int : Z := - 2 ^ 63.

(** [len] of a slice, string or channel buffer is an [int]. *)
Definition len {A} (l : list A) : Z := Z.of_nat (length l).

(** The dynamic values an [error] interface holds in this program.
    Pointer-typed errors made by [errors.New] and [fmt.Errorf] carry
    the address of their allocation: [==] on interfaces compares the
    dynamic type and then, for pointers, the address. *)
Inductive errorValue : Type :=
| errorString (addr : nat) (s : string)
    (* *errors.errorString *)
| EscapeError (s : string)
    (* url.EscapeError *)
| stacktraceNew (msg : string)
    (* *stacktrace.stacktrace without a cause, made by NewError *)
| stacktraceError (cause : errorValue) (msg : string)
    (* *stacktrace.stacktrace around a cause, made by Propagate *)
| ResponseError (ErrorCode : string)
    (* *azcore.ResponseError *)
| libraryError (msg : string).
    (* any other error a library hands back: csv, os, the two SDKs *)

(** An [error] interface value; [nil] is the empty interface. *)
Definition error : Type := option errorValue.
Definition nil : error := None.

(** The allocator: the next free address. [errors.New] returns a
    pointer to a fresh [errorString]. *)
Definition heap : Type := nat.

Definition errors_New (s : string) (h : heap) : errorValue * heap :=
  (errorString h s, S h).

(** [fmt.Errorf] without a [%w] verb is [errors.New] of the formatted
    text. *)
Definition fmt_Errorf (s : string) (h : heap) : errorValue * heap :=
  errors_New s h.

(** [stacktrace.NewError(msg)] and [stacktrace.Propagate(cause, msg)];
    [Propagate] of a nil cause is nil. *)
Definition stacktrace_NewError (msg : string) : error :=
  Some (stacktraceNew msg).

Definition stacktrace_Propagate (cause : error) (msg : string) : error :=
  match cause with
  | None => None
  | Some c => Some (stacktraceError c msg)
  end.

(** [stacktrace.RootCause(err).( *azcore.ResponseError)]: follow the
    causes to the innermost error and test its dynamic type. A
    stacktrace without a cause has a fresh [errorString] as its root. *)
Fixpoint rootResponseError (e : errorValue) : option string :=
  match e with
  | stacktraceError c _ => rootResponseError c
  | stacktraceNew _ => None
  | ResponseError code => Some code
  | errorString _ _ | EscapeError _ | libraryError _ => None
  end.

Definition tab : string := String (ascii_of_nat 9) EmptyString.

End Go.

Import Go.

(** ** [net/url]: query unescaping *)

Module url.

Definition byte (c : ascii) : Z := Z.of_N (N_of_ascii c).
Definition of_byte (z : Z) : ascii := ascii_of_N (Z.to_N (z mod 256)).

Definition between (lo c hi : ascii) : bool :=
  (byte lo <=? byte c) && (byte c <=? byte hi).

Definition ishex (c : ascii) : bool :=
  between "0" c "9" || between "a" c "f" || between "A" c "F".

Definition unhex (c : ascii) : Z :=
  if between "0" c "9" then byte c - byte "0"
  else if between "a" c "f" then byte c - byte "a" + 10
  else if between "A" c "F" then byte c - byte "A" + 10
  else 0.

(** First loop of [unescape] in mode [encodeQueryComponent]: count the
    [%] escapes and check that each is followed by two hex digits. A
    bad escape is reported with at most three bytes of the input from
    the [%] on. *)
Fixpoint scan (s : string) (n : nat) (hasPlus : bool)
  : string + (nat * bool) :=
  match s with
  | EmptyString => inr (n, hasPlus)
  | String c rest =>
      if Ascii.eqb c "%" then
        match rest with
        | String a (String b rest') =>
            if ishex a && ishex b then scan rest' (S n) hasPlus
            else inl (String.substring 0 3 s)
        | _ => inl (String.substring 0 3 s)
        end
      else if Ascii.eqb c "+" then scan rest n true
      else scan rest n hasPlus
  end.

(** Second loop: write the decoded bytes. *)
Fixpoint build (s : string) : string :=
  match s with
  | EmptyString => EmptyString
  | String c rest =>
      if Ascii.eqb c "%" then
        match rest with
        | String a (String b rest') =>
            String (of_byte (Z.lor (Z.shiftl (unhex a) 4) (unhex b)))
                   (build rest')
        | _ => EmptyString (* excluded by [scan] *)
        end
      else if Ascii.eqb c "+" then String " " (build rest)
      else String c (build rest)
  end.

(** [url.QueryUnescape]: the decoded string, or an [EscapeError]. *)
Definition QueryUnescape (s : string) : string + errorValue :=
  match scan s 0 false with
  | inl bad => inr (EscapeError bad)
  | inr (n, hasPlus) =>
      if (n =? 0)%nat && negb hasPlus then inl s else inl (build s)
  end.

End url.

(** ** [strings.ReplaceAll] *)

Module strings.

(** [strings.ReplaceAll(s, old, new)] for a non-empty [old]: scan left
    to right, replace each match and continue after it (matches do not
    overlap). [skip] counts the bytes of a match still to be passed. *)
Fixpoint replace_from (old new : string) (skip : nat) (s : string)
  : string :=
  match s with
  | EmptyString => EmptyString
  | String c rest =>
      match skip with
      | S k => replace_from old new k rest
      | O =>
          if String.prefix old s
          then String.append new
                 (replace_from old new (String.length old - 1) rest)
          else String c (replace_from old new 0 rest)
      end
  end.

Definition ReplaceAll (s old new : string) : string :=
  replace_from old new 0 s.

End strings.

(** ** The loader: flags, work items, [CopyFile] *)

(** [type AzureTier struct { val *blob.AccessTier }]: [None] is the nil
    pointer. *)
Record AzureTier : Type := { val : option string }.

Record CopyWorkItem : Type := { Bucket : string; Key : string }.

(** [context.Context] as far as [Err] tells contexts apart. *)
Inductive Context : Type :=
| Background
| Canceled (cause : errorValue).

Definition ctx_Err (c : Context) : error :=
  match c with
  | Background => nil
  | Canceled e => Some e
  end.

(** The two client handles are opaque to the loader; the copier is told
    apart by its context only. *)
Record FromS3Copier : Type := { ctx : Context }.

(** Requests the loader sends to the two stores, in order. *)
Inductive Call : Type :=
| S3GetObject (bucket key : string)
| AzUploadStream (container key : string) (tier : option string)
| BodyClose.

(** What the stores answer to the requests of one [CopyFile]. *)
Record Answers : Type := { GetObject_err : error; UploadStream_err : error }.

(** What the environment answers to one [NewS3Copier]. *)
Inductive Setup : Type :=
| SetupOk
| CredentialFails (e : errorValue)
| ClientFails (e : errorValue)
| ConfigFails (e : errorValue).

(** One line of log output, by the call that prints it. *)
Inductive LogLine : Type :=
| LogCopied (bucket key : string)       (* "Copied\t%s\t%s\n" *)
| LogError (res : errorValue)           (* "Error: %s" *)
| LogProcessed (seen errors : Z)        (* "Processed %d (%d errors)" *)
| LogFatal (err : errorValue)           (* log.Fatal(err) *)
| LogFatalRead (i : Z) (err : errorValue)
                                        (* "Error reading input at line %d: %s" *)
| LogFatalFields (i : Z) (n : Z)        (* "Wrong number of fields at line %d: %d fields" *)
| FlagInvalid (err : errorValue)        (* the flag package's report *)
| Panic (msg : string).                 (* a runtime panic's report *)

(** What [CopyFile] reads and writes besides its argument. *)
Record Env : Type := { heap_next : heap; log : list LogLine; calls : list Call }.

Definition do_call (c : Call) (e : Env) : Env :=
  {| heap_next := heap_next e; log := log e; calls := calls e ++ [c] |}.

Definition do_log (l : LogLine) (e : Env) : Env :=
  {| heap_next := heap_next e; log := log e ++ [l]; calls := calls e |}.

(** Package initialisation: [var errCloseSentinel = errors.New("finished")]
    is the first allocation. *)
Definition package_init : errorValue * heap := errors_New "finished" 0%nat.
Definition errCloseSentinel : error := Some (fst package_init).
Definition init_heap : heap := snd package_init.

(** [res == errCloseSentinel] on interface values: same dynamic type
    and same pointer. *)
Definition is_errCloseSentinel (res : error) : bool :=
  match res, errCloseSentinel with
  | Some (errorString a _), Some (errorString b _) => (a =? b)%nat
  | _, _ => false
  end.

Section Loader.

(** [blob.PossibleAccessTierValues()] of the Azure SDK. *)
Variable PossibleAccessTierValues : list string.

Definition AzureTier_String (s : AzureTier) : string :=
  match val s with
  | None => ""
  | Some v => v
  end.

Definition AzureTier_Set (v : string) (s : AzureTier) : AzureTier * error :=
  let v := if String.eqb v "" then "Hot"%string else v in
  let s :=
    match List.find (fun possibleAccessTier => String.eqb possibleAccessTier v)
                    PossibleAccessTierValues with
    | Some possibleAccessTier => {| val := Some possibleAccessTier |}
    | None => s
    end in
  match val s with
  | None => (s, stacktrace_NewError ("Azure tier " +:+ v +:+ " not found"))
  | Some _ => (s, nil)
  end.

Definition AzureTier_Get (s : AzureTier) : option string := val s.

(** [flag.Parse] as far as the [azure-tier] flag goes: [Set] is called
    once for each occurrence of the flag on the command line, in
    order, and never when the flag is absent; the first error stops
    the parse (and, under [flag.ExitOnError], the process). *)
Fixpoint flag_Parse (occurrences : list string) (s : AzureTier)
  : AzureTier * error :=
  match occurrences with
  | [] => (s, nil)
  | v :: more =>
      match AzureTier_Set v s with
      | (s', None) => flag_Parse more s'
      | (s', Some e) => (s', Some e)
      end
  end.

Definition set_heap (h : heap) (e : Env) : Env :=
  {| heap_next := h; log := log e; calls := calls e |}.

Definition CopyFile (azureTier : AzureTier) (ans : Answers)
           (wi : CopyWorkItem) (e : Env) : error * Env :=
  match url.QueryUnescape (Key wi) with
  | inr err =>
      (stacktrace_Propagate (Some err)
         ("unable to url decode " +:+ Bucket wi +:+ "/" +:+ Key wi), e)
  | inl key =>
      let e := do_call (S3GetObject (Bucket wi) key) e in
      match GetObject_err ans with
      | Some err =>
          (stacktrace_Propagate (Some err)
             (Bucket wi +:+ tab +:+ key +:+ " download failed"), e)
      | None =>
          let azureContainer := strings.ReplaceAll (Bucket wi) "." "-" in
          let e := do_call (AzUploadStream azureContainer key
                              (AzureTier_Get azureTier)) e in
          match UploadStream_err ans with
          | Some err =>
              match rootResponseError err with
              | Some ErrorCode =>
                  let (r, h) :=
                    fmt_Errorf (azureContainer +:+ tab +:+ key
                                +:+ " upload failed: " +:+ ErrorCode)
                               (heap_next e) in
                  (Some r, do_call BodyClose (set_heap h e))
              | None =>
                  (stacktrace_Propagate (Some err)
                     ("Uploading " +:+ azureContainer +:+ "/" +:+ key
                      +:+ " failed"),
                   do_call BodyClose e)
              end
          | None =>
              (nil, do_call BodyClose (do_log (LogCopied (Bucket wi) key) e))
          end
      end
  end.

(** [NewS3Copier]: the copier, an error to return, or [log.Fatal]. *)
Inductive NewResult : Type :=
| NewReturns (c : option FromS3Copier) (err : error)
| NewFatal (err : errorValue).

Definition NewS3Copier (env : Setup) : NewResult :=
  match env with
  | CredentialFails e =>
      NewReturns None
        (stacktrace_Propagate (Some e)
           "Couldn't prepare Azure credentials - try running `az login`")
  | ClientFails e =>
      NewReturns None (stacktrace_Propagate (Some e) "Azure client")
  | ConfigFails e => NewFatal e
  | SetupOk => NewReturns (Some {| ctx := Background |}) nil
  end.

End Loader.

(** ** The goroutines *)

(** The command line: [-input], [-azure-url], [-j] and every occurrence
    of [-azure-tier]. *)
Record Flags : Type := {
  inputFileName : string;
  azureUrl : string;
  concurrency : Z;
  azureTierArgs : list string
}.

(** What [csv.Reader.Read] returns, call after call, before the
    end of the stream: a record or an error other than [io.EOF]. *)
Inductive ReadResult : Type :=
| ReadRecord (line : list string)
| ReadError (err : errorValue).

(** The input: what [os.Open] answers for a named file, and the
    successive results of [Read]; then [io.EOF]. *)
Record Input : Type := { open_err : error; reads : list ReadResult }.

(** The goroutine of [readerLoop], by the line it is at. *)
Inductive Reader : Type :=
| Reading (i : Z) (rest : list ReadResult)                    (* line 167 *)
| Sending (wi : CopyWorkItem) (i : Z) (rest : list ReadResult) (* line 181 *)
| ReaderDone.                                  (* returned: [output] closed *)

(** A [DoCopy] goroutine, by the line it is at. *)
Inductive PC : Type :=
| AtRange                       (* line 136: receiving from [inputs] *)
| AtCtx (workItem : CopyWorkItem)  (* line 137 *)
| AtSend (err : error)          (* line 141 *)
| AtSentinel                    (* line 143 *)
| Finished.

(** [pulled] and [emitted] are history: the items this worker received
    and the values it sent, oldest first. *)
Record Worker : Type := {
  copier : FromS3Copier;
  pc : PC;
  pulled : list CopyWorkItem;
  emitted : list error
}.

(** The main goroutine after [readerLoop] returned. *)
Inductive Main : Type :=
| MakeResults                                   (* line 192 *)
| Spawning (i : Z)                              (* line 195 *)
| Aggregating (expectedCloses seenOk seen : Z). (* line 205 *)

(** The process. [received] is history: what the loop of [main] took
    from [results], oldest first. *)
Record State : Type := {
  flags : Flags;
  azureTier : AzureTier;
  reader : Reader;
  workers : list Worker;
  results_cap : Z;
  results : list error;
  results_closed : bool;
  main : Main;
  env : Env;
  received : list error
}.

Inductive Proc : Type :=
| Running (s : State)
| Exited (code : Z) (s : State).

Definition state_of (p : Proc) : State :=
  match p with
  | Running s | Exited _ s => s
  end.

Definition exit_code (p : Proc) : option Z :=
  match p with
  | Running _ => None
  | Exited c _ => Some c
  end.

Definition set_reader (r : Reader) (s : State) : State :=
  {| flags := flags s; azureTier := azureTier s; reader := r;
     workers := workers s; results_cap := results_cap s;
     results := results s; results_closed := results_closed s;
     main := main s; env := env s; received := received s |}.

Definition set_workers (ws : list Worker) (s : State) : State :=
  {| flags := flags s; azureTier := azureTier s; reader := reader s;
     workers := ws; results_cap := results_cap s;
     results := results s; results_closed := results_closed s;
     main := main s; env := env s; received := received s |}.

Definition set_results_cap (c : Z) (s : State) : State :=
  {| flags := flags s; azureTier := azureTier s; reader := reader s;
     workers := workers s; results_cap := c;
     results := results s; results_closed := results_closed s;
     main := main s; env := env s; received := received s |}.

Definition set_results (rs : list error) (s : State) : State :=
  {| flags := flags s; azureTier := azureTier s; reader := reader s;
     workers := workers s; results_cap := results_cap s;
     results := rs; results_closed := results_closed s;
     main := main s; env := env s; received := received s |}.

Definition close_results (s : State) : State :=
  {| flags := flags s; azureTier := azureTier s; reader := reader s;
     workers := workers s; results_cap := results_cap s;
     results := results s; results_closed := true;
     main := main s; env := env s; received := received s |}.

Definition set_main (m : Main) (s : State) : State :=
  {| flags := flags s; azureTier := azureTier s; reader := reader s;
     workers := workers s; results_cap := results_cap s;
     results := results s; results_closed := results_closed s;
     main := m; env := env s; received := received s |}.

Definition set_env (e : Env) (s : State) : State :=
  {| flags := flags s; azureTier := azureTier s; reader := reader s;
     workers := workers s; results_cap := results_cap s;
     results := results s; results_closed := results_closed s;
     main := main s; env := e; received := received s |}.

Definition set_received (rs : list error) (s : State) : State :=
  {| flags := flags s; azureTier := azureTier s; reader := reader s;
     workers := workers s; results_cap := results_cap s;
     results := results s; results_closed := results_closed s;
     main := main s; env := env s; received := rs |}.

Definition set_pc (p : PC) (w : Worker) : Worker :=
  {| copier := copier w; pc := p; pulled := pulled w; emitted := emitted w |}.

Definition pull (wi : CopyWorkItem) (w : Worker) : Worker :=
  {| copier := copier w; pc := AtCtx wi; pulled := pulled w ++ [wi];
     emitted := emitted w |}.

Definition emit (v : error) (p : PC) (w : Worker) : Worker :=
  {| copier := copier w; pc := p; pulled := pulled w;
     emitted := emitted w ++ [v] |}.

(** [log.Fatal]: print, then [os.Exit(1)]. *)
Definition log_Fatal (l : LogLine) (s : State) : Proc :=
  Exited 1 (set_env (do_log l (env s)) s).

(** A runtime panic that nothing recovers: report, exit status 2. *)
Definition panic (msg : string) (s : State) : Proc :=
  Exited 2 (set_env (do_log (Panic msg) (env s)) s).

(** The goroutine started at line 161, one iteration step at a time.
    Sending on the unbuffered [output] is [handoff] below. *)
Definition readerLoop_step (s : State) : option Proc :=
  match reader s with
  | Reading i [] =>
      (* io.EOF: break, then the deferred close(output) *)
      Some (Running (set_reader ReaderDone s))
  | Reading i (ReadError err :: _) =>
      Some (log_Fatal (LogFatalRead i err) s)
  | Reading i (ReadRecord line :: rest) =>
      if negb (len line =? 2)
      then Some (log_Fatal (LogFatalFields i (len line)) s)
      else
        let wi := {| Bucket := default ""%string (line !! 0%nat);
                     Key := default ""%string (line !! 1%nat) |} in
        Some (Running (set_reader (Sending wi i rest) s))
  | Sending _ _ _ => None
  | ReaderDone => None
  end.

(** [output <- item] of the reader meets [range inputs] of worker [w]. *)
Definition handoff (w : nat) (s : State) : option Proc :=
  match reader s, workers s !! w with
  | Sending wi i rest, Some wk =>
      match pc wk with
      | AtRange =>
          Some (Running (set_reader (Reading (add64 i 1) rest)
                          (set_workers (<[w := pull wi wk]> (workers s)) s)))
      | _ => None
      end
  | _, _ => None
  end.

(** [resultsChannel <- v] by worker [w], who continues at [next]:
    blocks while the buffer is full, panics on a closed channel. *)
Definition send_result (w : nat) (wk : Worker) (v : error) (next : PC)
           (s : State) : option Proc :=
  if results_closed s then Some (panic "send on closed channel" s)
  else if len (results s) <? results_cap s
  then Some (Running (set_results (results s ++ [v])
                        (set_workers (<[w := emit v next wk]> (workers s)) s)))
  else None.

(** [DoCopy] of worker [w], one step; [ans] is what the stores answer
    if the step is a [CopyFile]. *)
Definition DoCopy_step (w : nat) (ans : Answers) (s : State) : option Proc :=
  match workers s !! w with
  | None => None
  | Some wk =>
      match pc wk with
      | AtRange =>
          match reader s with
          | ReaderDone =>
              (* [inputs] closed and empty: the range loop ends *)
              Some (Running (set_workers
                               (<[w := set_pc AtSentinel wk]> (workers s)) s))
          | _ => None
          end
      | AtCtx workItem =>
          match ctx_Err (ctx (copier wk)) with
          | Some _ =>
              Some (Running (set_workers
                               (<[w := set_pc AtSentinel wk]> (workers s)) s))
          | None =>
              let (err, e) := CopyFile (azureTier s) ans workItem (env s) in
              Some (Running (set_env e
                       (set_workers
                          (<[w := set_pc (AtSend err) wk]> (workers s)) s)))
          end
      | AtSend err => send_result w wk err AtRange s
      | AtSentinel => send_result w wk errCloseSentinel Finished s
      | Finished => None
      end
  end.

(** The body of the loop at line 205 for one received value. *)
Definition aggregate (res : error) (expectedCloses seenOk seen : Z)
           (s : State) : Proc :=
  let expectedCloses :=
    if is_errCloseSentinel res then sub64 expectedCloses 1
    else expectedCloses in
  if is_errCloseSentinel res && (expectedCloses =? 0)
  then (* close(results); return: main returns, the process exits 0 *)
    Exited 0 (close_results (set_main (Aggregating expectedCloses seenOk seen) s))
  else
    let seen := add64 seen 1 in
    match res with
    | None =>
        Running (set_main (Aggregating expectedCloses (add64 seenOk 1) seen) s)
    | Some e =>
        if is_errCloseSentinel res
        then Running (set_main (Aggregating expectedCloses seenOk seen) s)
        else Running (set_env (do_log (LogError e) (env s))
                        (set_main (Aggregating expectedCloses seenOk seen) s))
    end.

(** [main] from line 192 on, one step; [setup] is what the environment
    answers if the step is a [NewS3Copier]. *)
Definition main_step (setup : Setup) (s : State) : option Proc :=
  match main s with
  | MakeResults =>
      let size := mul64 2 (concurrency (flags s)) in
      if size <? 0 then Some (panic "makechan: size out of range" s)
      else if concurrency (flags s) <? 0
      then Some (panic "makeslice: cap out of range" s)
      else Some (Running (set_main (Spawning (len (workers s)))
                            (set_results_cap size s)))
  | Spawning i =>
      if i <? concurrency (flags s) then
        match NewS3Copier setup with
        | NewFatal err => Some (log_Fatal (LogFatal err) s)
        | NewReturns _ (Some err) => Some (log_Fatal (LogFatal err) s)
        | NewReturns None None => Some (panic "nil pointer dereference" s)
        | NewReturns (Some c) None =>
            let wk := {| copier := c; pc := AtRange; pulled := [];
                         emitted := [] |} in
            Some (Running (set_main (Spawning (add64 i 1))
                             (set_workers (workers s ++ [wk]) s)))
        end
      else
        Some (Running (set_main (Aggregating (concurrency (flags s)) 0 0) s))
  | Aggregating expectedCloses seenOk seen =>
      match results s with
      | res :: rest =>
          Some (aggregate res expectedCloses seenOk seen
                  (set_received (received s ++ [res]) (set_results rest s)))
      | [] =>
          if results_closed s
          then (* the range loop ends; line 223; main returns *)
            Some (Exited 0 (set_env
                    (do_log (LogProcessed seen (sub64 seen seenOk)) (env s)) s))
          else None
      end
  end.

(** ** The process *)

(** One move of the scheduler, with the environment's answer where the
    move asks the environment something. *)
Inductive Move : Type :=
| MoveReader
| MoveHandoff (w : nat)
| MoveWorker (w : nat) (ans : Answers)
| MoveMain (setup : Setup).

Definition exec (m : Move) (s : State) : option Proc :=
  match m with
  | MoveReader => readerLoop_step s
  | MoveHandoff w => handoff w s
  | MoveWorker w ans => DoCopy_step w ans s
  | MoveMain setup => main_step setup s
  end.

(** A process that exited takes no step. *)
Inductive step : Proc -> Proc -> Prop :=
| step_move (m : Move) (s : State) (p : Proc) :
    exec m s = Some p -> step (Running s) p.

Definition empty_env : Env :=
  {| heap_next := init_heap; log := []; calls := [] |}.

(** [main] up to line 191: [flag.Parse], then [readerLoop] opens the
    input and starts the reader. An invalid flag value ends the process
    with status 2, a failed [os.Open] with [log.Fatal]. *)
Definition start (possible : list string) (fl : Flags) (inp : Input) : Proc :=
  let (tier, err) := flag_Parse possible (azureTierArgs fl) {| val := None |} in
  let s := {| flags := fl; azureTier := tier; reader := Reading 1 (reads inp);
              workers := []; results_cap := 0; results := [];
              results_closed := false; main := MakeResults;
              env := empty_env; received := [] |} in
  match err with
  | Some e => Exited 2 (set_env (do_log (FlagInvalid e) (env s)) s)
  | None =>
      if String.eqb (inputFileName fl) "-" then Running s
      else match open_err inp with
           | Some e => log_Fatal (LogFatal e) s
           | None => Running s
           end
  end.

Definition reachable (possible : list string) (fl : Flags) (inp : Input)
  : Proc -> Prop :=
  rtc step (start possible fl inp).

(** Running a schedule: [None] when a move is not enabled (its
    goroutine is blocked) or the process has exited before the end. *)
Fixpoint run (ms : list Move) (p : Proc) : option Proc :=
  match ms with
  | [] => Some p
  | m :: ms' =>
      match p with
      | Running s =>
          match exec m s with
          | Some p' => run ms' p'
          | None => None
          end
      | Exited _ _ => None
      end
  end.

(** ** Counting *)

Definition is_nil (res : error) : bool :=
  match res with
  | None => true
  | Some _ => false
  end.

Definition markers (l : list error) : nat :=
  length (filter (fun v => is_errCloseSentinel v = true) l).

Definition outcomes (l : list error) : nat :=
  length (filter (fun v => is_errCloseSentinel v = false) l).

Definition successes (l : list error) : nat :=
  length (filter (fun v => is_nil v = true) l).

Definition has_summary (l : list LogLine) : bool :=
  existsb (fun x => match x with LogProcessed _ _ => true | _ => false end) l.

Definition well_formed (r : ReadResult) : bool :=
  match r with
  | ReadRecord line => len line =? 2
  | ReadError _ => false
  end.

Definition final_counters (p : Proc) : option (Z * Z * Z) :=
  match main (state_of p) with
  | Aggregating expectedCloses seenOk seen => Some (expectedCloses, seenOk, seen)
  | _ => None
  end.

(** [alive]: the workers that have not sent their marker yet. *)
Definition alive (wk : Worker) : nat :=
  match pc wk with
  | Finished => 0
  | _ => 1
  end.

Definition total (f : Worker -> nat) (ws : list Worker) : nat :=
  sum_list_with f ws.

(** Every outcome waiting in the buffer still has a marker behind it:
    one already in the buffer, or one that one of [a] live workers is
    yet to send. *)
Fixpoint followed (a : nat) (l : list error) : Prop :=
  match l with
  | [] => True
  | x :: l' =>
      (is_errCloseSentinel x = false -> (0 < markers l' + a)%nat)
      /\ followed a l'
  end.

(** ** Invariants of the process *)

(** What the history of a worker looks like at each line of [DoCopy];
    [rd] is the reader's state. *)
Definition worker_ok (rd : Reader) (wk : Worker) : Prop :=
  ctx (copier wk) = Background /\
  match pc wk with
  | AtRange =>
      markers (emitted wk) = 0%nat /\
      length (emitted wk) = length (pulled wk)
  | AtCtx workItem =>
      (exists before, pulled wk = before ++ [workItem]) /\
      markers (emitted wk) = 0%nat /\
      S (length (emitted wk)) = length (pulled wk)
  | AtSend err =>
      is_errCloseSentinel err = false /\
      markers (emitted wk) = 0%nat /\
      S (length (emitted wk)) = length (pulled wk)
  | AtSentinel =>
      rd = ReaderDone /\
      markers (emitted wk) = 0%nat /\
      length (emitted wk) = length (pulled wk)
  | Finished =>
      rd = ReaderDone /\
      exists out, emitted wk = out ++ [errCloseSentinel] /\
                  markers out = 0%nat /\
                  length out = length (pulled wk)
  end.

Definition pulled_total (s : State) : nat :=
  total (fun w => length (pulled w)) (workers s).

(** How far the reader is in the input. *)
Definition reader_ok (inp : Input) (s : State) : Prop :=
  match reader s with
  | Reading i rest =>
      exists pre, reads inp = pre ++ rest /\
                  Forall (fun r => well_formed r = true) pre /\
                  pulled_total s = length pre
  | Sending wi i rest =>
      exists pre, reads inp = pre ++ ReadRecord [Bucket wi; Key wi] :: rest /\
                  Forall (fun r => well_formed r = true) pre /\
                  pulled_total s = length pre
  | ReaderDone =>
      Forall (fun r => well_formed r = true) (reads inp) /\
      pulled_total s = length (reads inp)
  end.

Record Inv (inp : Input) (s : State) : Prop := {
  inv_workers : Forall (worker_ok (reader s)) (workers s);
  inv_heap : (init_heap <= heap_next (env s))%nat;
  inv_count :
    length (received s ++ results s)
    = total (fun w => length (emitted w)) (workers s);
  inv_markers :
    markers (received s ++ results s)
    = total (fun w => markers (emitted w)) (workers s);
  inv_followed : followed (total alive (workers s)) (results s);
  inv_reader : reader_ok inp s;
  inv_log : has_summary (log (env s)) = false
}.

Definition Inv_proc (inp : Input) (p : Proc) : Prop :=
  Inv inp (state_of p) /\
  match p with
  | Running s => results_closed s = false
  | Exited _ _ => True
  end.

(** The counters of the loop in [main], for a pool of [N]. *)
Definition agg_ok (N : Z) (p : Proc) : Prop :=
  let s := state_of p in
  match main s with
  | MakeResults =>
      len (workers s) = 0 /\ received s = [] /\ exit_code p <> Some 0
  | Spawning i =>
      i = len (workers s) /\ i <= N /\ received s = [] /\
      exit_code p <> Some 0
  | Aggregating expectedCloses seenOk seen =>
      len (workers s) = N /\
      expectedCloses = N - Z.of_nat (markers (received s)) /\
      seenOk = wrap64 (Z.of_nat (successes (received s))) /\
      match exit_code p with
      | Some 0 => expectedCloses = 0 /\ seen = wrap64 (len (received s) - 1)
      | _ => 0 < expectedCloses /\ seen = wrap64 (len (received s))
      end
  end.

(** ** What the claims speak about *)

(** The requests one [CopyFile] adds to the trace. *)
Definition requests (tier : AzureTier) (ans : Answers) (wi : CopyWorkItem)
           (e : Env) : list Call :=
  drop (length (calls e)) (calls (CopyFile tier ans wi e).2).


(** [expectedCloses] in a process with a pool of [N]. *)
Definition expectedCloses_ok (N : Z) (p : Proc) : Prop :=
  match main (state_of p) with
  | Aggregating expectedCloses _ _ =>
      expectedCloses = N - Z.of_nat (markers (received (state_of p))) /\
      0 <= expectedCloses /\
      (expectedCloses = 0 <-> exit_code p = Some 0)
  | MakeResults | Spawning _ =>
      received (state_of p) = [] /\ exit_code p <> Some 0
  end.

(** ** Sample runs *)

Definition sample_tiers : list string :=
  ["Archive"; "Cold"; "Cool"; "Hot"; "Premium"]%string.

Definition stores_ok : Answers :=
  {| GetObject_err := nil; UploadStream_err := nil |}.

Definition flags_j (j : Z) (tiers : list string) : Flags :=
  {| inputFileName := "-";
     azureUrl := "https://account.blob.core.windows.net/";
     concurrency := j; azureTierArgs := tiers |}.

Definition stdin (rs : list ReadResult) : Input :=
  {| open_err := nil; reads := rs |}.

Definition final_of (ms : list Move) (fl : Flags) (inp : Input) : Proc :=
  default (start sample_tiers fl inp) (run ms (start sample_tiers fl inp)).

(** [-j 1], empty input: the worker finds the queue closed, sends its
    marker, [main] receives it. *)
Definition one_worker_no_input : list Move :=
  [MoveMain SetupOk; MoveMain SetupOk; MoveMain SetupOk; MoveReader;
   MoveWorker 0 stores_ok; MoveWorker 0 stores_ok; MoveMain SetupOk].

(** [-j 2], one line: worker 0 copies the object, both workers send
    their markers, [main] receives the three values. *)
Definition one_line : Input := stdin [ReadRecord ["my.bucket"; "a%20b+c"]%string].

Definition two_workers_one_item : list Move :=
  [MoveMain SetupOk; MoveMain SetupOk; MoveMain SetupOk; MoveMain SetupOk;
   MoveReader; MoveHandoff 0; MoveReader;
   MoveWorker 0 stores_ok; MoveWorker 0 stores_ok;
   MoveWorker 1 stores_ok; MoveWorker 1 stores_ok;
   MoveWorker 0 stores_ok; MoveWorker 0 stores_ok;
   MoveMain SetupOk; MoveMain SetupOk; MoveMain SetupOk].

(** [-j 1], one line whose key does not decode: up to the worker
    holding the item. *)
Definition bad_key_line : Input := stdin [ReadRecord ["bucket"; "%zz"]%string].

Definition worker_holds_item : list Move :=
  [MoveMain SetupOk; MoveMain SetupOk; MoveMain SetupOk; MoveReader;
   MoveHandoff 0].

(** A line with one field only. *)
Definition short_line : Input := stdin [ReadRecord ["only-one-field"]%string].

(** ** The moves, case by case *)

(** What a worker at a send sends, and where it goes on. *)
Definition sending (wk : Worker) : option (error * PC) :=
  match pc wk with
  | AtSend err => Some (err, AtRange)
  | AtSentinel => Some (errCloseSentinel, Finished)
  | AtRange | AtCtx _ | Finished => None
  end.

Definition fresh_worker (c : FromS3Copier) : Worker :=
  {| copier := c; pc := AtRange; pulled := []; emitted := [] |}.

(** Every way [exec] takes a state to the next. *)
Inductive trans (s : State) : Proc -> Prop :=
| t_eof i :
    reader s = Reading i [] ->
    trans s (Running (set_reader ReaderDone s))
| t_read_error i err rest :
    reader s = Reading i (ReadError err :: rest) ->
    trans s (log_Fatal (LogFatalRead i err) s)
| t_fields i line rest :
    reader s = Reading i (ReadRecord line :: rest) -> len line <> 2 ->
    trans s (log_Fatal (LogFatalFields i (len line)) s)
| t_record i bucket key rest :
    reader s = Reading i (ReadRecord [bucket; key] :: rest) ->
    trans s (Running (set_reader
                        (Sending {| Bucket := bucket; Key := key |} i rest) s))
| t_handoff w wk wi i rest :
    reader s = Sending wi i rest ->
    workers s !! w = Some wk -> pc wk = AtRange ->
    trans s (Running (set_reader (Reading (add64 i 1) rest)
                        (set_workers (<[w := pull wi wk]> (workers s)) s)))
| t_range_end w wk :
    workers s !! w = Some wk -> pc wk = AtRange -> reader s = ReaderDone ->
    trans s (Running (set_workers
                        (<[w := set_pc AtSentinel wk]> (workers s)) s))
| t_cancelled w wk wi e :
    workers s !! w = Some wk -> pc wk = AtCtx wi ->
    ctx_Err (ctx (copier wk)) = Some e ->
    trans s (Running (set_workers
                        (<[w := set_pc AtSentinel wk]> (workers s)) s))
| t_copy w wk wi ans :
    workers s !! w = Some wk -> pc wk = AtCtx wi ->
    ctx_Err (ctx (copier wk)) = None ->
    trans s (Running
               (set_env (CopyFile (azureTier s) ans wi (env s)).2
                  (set_workers
                     (<[w := set_pc
                               (AtSend (CopyFile (azureTier s) ans wi (env s)).1)
                               wk]> (workers s)) s)))
| t_send_closed w wk v next :
    workers s !! w = Some wk -> sending wk = Some (v, next) ->
    results_closed s = true ->
    trans s (panic "send on closed channel" s)
| t_send w wk v next :
    workers s !! w = Some wk -> sending wk = Some (v, next) ->
    results_closed s = false -> len (results s) < results_cap s ->
    trans s (Running (set_results (results s ++ [v])
                        (set_workers (<[w := emit v next wk]> (workers s)) s)))
| t_make_panic msg :
    main s = MakeResults ->
    mul64 2 (concurrency (flags s)) < 0 \/ concurrency (flags s) < 0 ->
    trans s (panic msg s)
| t_make :
    main s = MakeResults ->
    0 <= mul64 2 (concurrency (flags s)) -> 0 <= concurrency (flags s) ->
    trans s (Running (set_main (Spawning (len (workers s)))
                        (set_results_cap (mul64 2 (concurrency (flags s))) s)))
| t_spawn_fatal i err :
    main s = Spawning i -> i < concurrency (flags s) ->
    trans s (log_Fatal (LogFatal err) s)
| t_spawn i :
    main s = Spawning i -> i < concurrency (flags s) ->
    trans s (Running (set_main (Spawning (add64 i 1))
                        (set_workers
                           (workers s ++ [fresh_worker {| ctx := Background |}])
                           s)))
| t_loop i :
    main s = Spawning i -> concurrency (flags s) <= i ->
    trans s (Running (set_main (Aggregating (concurrency (flags s)) 0 0) s))
| t_return ec ok seen res rest :
    main s = Aggregating ec ok seen -> results s = res :: rest ->
    is_errCloseSentinel res = true -> sub64 ec 1 = 0 ->
    trans s (Exited 0
               (close_results
                  (set_main (Aggregating 0 ok seen)
                     (set_received (received s ++ [res])
                        (set_results rest s)))))
| t_marker ec ok seen res rest :
    main s = Aggregating ec ok seen -> results s = res :: rest ->
    is_errCloseSentinel res = true -> sub64 ec 1 <> 0 ->
    trans s (Running
               (set_main (Aggregating (sub64 ec 1) ok (add64 seen 1))
                  (set_received (received s ++ [res]) (set_results rest s))))
| t_success ec ok seen rest :
    main s = Aggregating ec ok seen -> results s = nil :: rest ->
    trans s (Running
               (set_main (Aggregating ec (add64 ok 1) (add64 seen 1))
                  (set_received (received s ++ [nil]) (set_results rest s))))
| t_failure ec ok seen e rest :
    main s = Aggregating ec ok seen -> results s = Some e :: rest ->
    is_errCloseSentinel (Some e) = false ->
    trans s (Running
               (set_env (do_log (LogError e) (env s))
                  (set_main (Aggregating ec ok (add64 seen 1))
                     (set_received (received s ++ [Some e])
                        (set_results rest s)))))
| t_summary ec ok seen :
    main s = Aggregating ec ok seen -> results s = [] ->
    results_closed s = true ->
    trans s (Exited 0 (set_env
                         (do_log (LogProcessed seen (sub64 seen ok)) (env s))
                         s)).

(** ** More counting: requests, log lines, copies *)

Definition count_if {A} (f : A -> bool) (l : list A) : nat :=
  length (List.filter f l).

Definition is_get (c : Call) : bool :=
  match c with S3GetObject _ _ => true | _ => false end.
Definition is_upload (c : Call) : bool :=
  match c with AzUploadStream _ _ _ => true | _ => false end.
Definition is_close (c : Call) : bool :=
  match c with BodyClose => true | _ => false end.

Definition is_copied (l : LogLine) : bool :=
  match l with LogCopied _ _ => true | _ => false end.
Definition is_error (l : LogLine) : bool :=
  match l with LogError _ => true | _ => false end.
Definition is_fatal (l : LogLine) : bool :=
  match l with
  | LogFatal _ | LogFatalRead _ _ | LogFatalFields _ _ => true
  | _ => false
  end.
Definition is_panic (l : LogLine) : bool :=
  match l with Panic _ => true | _ => false end.
Definition is_flag_invalid (l : LogLine) : bool :=
  match l with FlagInvalid _ => true | _ => false end.

(** A transfer that failed: an outcome that is not nil. *)
Definition is_failure (res : error) : bool :=
  negb (is_nil res) && negb (is_errCloseSentinel res).

(** The [CopyFile] calls a worker has completed: the outcomes it sent
    and the one it may hold. *)
Definition copied (wk : Worker) : nat :=
  outcomes (emitted wk) + match pc wk with AtSend _ => 1 | _ => 0 end.

(** Among them, those that returned nil. *)
Definition copied_ok (wk : Worker) : nat :=
  successes (emitted wk) + match pc wk with AtSend None => 1 | _ => 0 end.

Definition no_dot (s : string) : Prop :=
  forall i, String.get i s <> Some "."%char.

(** An upload request under the tier [tier]. *)
Definition call_ok (tier : AzureTier) (c : Call) : Prop :=
  match c with
  | AzUploadStream container _ t => t = AzureTier_Get tier /\ no_dot container
  | S3GetObject _ _ | BodyClose => True
  end.

(** The requests made so far. *)
Record InvCalls (tier : AzureTier) (s : State) : Prop := {
  ic_tier : azureTier s = tier;
  ic_calls : Forall (call_ok tier) (calls (env s));
  ic_close :
    count_if is_close (calls (env s)) = count_if is_upload (calls (env s));
  ic_upload :
    (count_if is_upload (calls (env s)) <= count_if is_get (calls (env s)))%nat;
  ic_get :
    (count_if is_get (calls (env s)) <= total copied (workers s))%nat
}.

(** ** The buffer, the dispatch, the log, the exit *)

(** The results channel: made once, never over its capacity. *)
Record InvBuf (s : State) : Prop := {
  ib_len : len (results s) <= results_cap s;
  ib_main :
    match main s with
    | MakeResults => workers s = [] /\ results s = [] /\ results_cap s = 0
    | Spawning _ | Aggregating _ _ _ =>
        results_cap s = mul64 2 (concurrency (flags s)) /\
        0 <= results_cap s /\ 0 <= concurrency (flags s)
    end
}.

(** The work item of a well-formed record. *)
Definition item_of (r : ReadResult) : option CopyWorkItem :=
  match r with
  | ReadRecord [bucket; key] => Some {| Bucket := bucket; Key := key |}
  | ReadRecord _ | ReadError _ => None
  end.

Definition items_of (rs : list ReadResult) : list CopyWorkItem :=
  omap item_of rs.

(** The items the workers have received, the one the reader holds, and
    the records it has not read yet. *)
Definition dispatched (s : State) : list CopyWorkItem :=
  concat (map pulled (workers s)).

Definition in_flight (r : Reader) : list CopyWorkItem :=
  match r with
  | Sending wi _ _ => [wi]
  | Reading _ _ | ReaderDone => []
  end.

Definition unread (r : Reader) : list ReadResult :=
  match r with
  | Reading _ rest | Sending _ _ rest => rest
  | ReaderDone => []
  end.

Record InvDispatch (inp : Input) (s : State) : Prop := {
  id_perm :
    dispatched s ++ in_flight (reader s) ++ items_of (unread (reader s))
    ≡ₚ items_of (reads inp);
  id_line :
    match reader s with
    | Reading i rest => i = wrap64 (len (reads inp) - len rest + 1)
    | Sending _ i rest => i = wrap64 (len (reads inp) - len rest)
    | ReaderDone => True
    end
}.

(** Log lines against outcomes. *)
Record InvLog (s : State) : Prop := {
  il_errors :
    count_if is_error (log (env s)) = count_if is_failure (received s);
  il_copied : count_if is_copied (log (env s)) = total copied_ok (workers s);
  il_succ :
    successes (received s ++ results s)
    = total (fun w => successes (emitted w)) (workers s);
  il_panic :
    (0 < count_if is_panic (log (env s)))%nat ->
    mul64 2 (concurrency (flags s)) < 0 \/ concurrency (flags s) < 0
}.

(** How a process ends: [main] returns after a marker, [log.Fatal]
    prints and exits, a flag error or a panic is reported. *)
Definition exit_ok (p : Proc) : Prop :=
  match p with
  | Running _ => True
  | Exited c s =>
      (c = 0 /\ results_closed s = true /\
       exists l res, received s = l ++ [res] /\
                     is_errCloseSentinel res = true)
      \/ (c = 1 /\ exists l, last (log (env s)) = Some l /\ is_fatal l = true)
      \/ (c = 2 /\ exists l, last (log (env s)) = Some l /\
                             (is_panic l || is_flag_invalid l) = true)
  end.

(** While [main] starts the workers, [i] is their number. *)
Definition spawn_ok (s : State) : Prop :=
  match main s with
  | MakeResults => workers s = []
  | Spawning i => i = len (workers s)
  | Aggregating _ _ _ => True
  end.

(** ** A measure of the work left *)

Definition reader_weight (r : Reader) : nat :=
  match r with
  | Reading _ rest => 6 * length rest + 1
  | Sending _ _ rest => 6 * length rest + 6
  | ReaderDone => 0
  end.

Definition worker_weight (wk : Worker) : nat :=
  match pc wk with
  | AtCtx _ => 8
  | AtSend _ => 6
  | AtRange => 4
  | AtSentinel => 2
  | Finished => 0
  end.

Definition main_weight (N : Z) (m : Main) : nat :=
  match m with
  | MakeResults => 5 * Z.to_nat N + 2
  | Spawning i => 5 * Z.to_nat (N - i) + 1
  | Aggregating _ _ _ => 0
  end.

Definition weight (s : State) : nat :=
  reader_weight (reader s) + total worker_weight (workers s)
  + length (results s) + main_weight (concurrency (flags s)) (main s).

Definition proc_weight (p : Proc) : nat :=
  match p with
  | Running s => weight s
  | Exited _ _ => 0
  end.

(** ** Keys *)

(** A key with neither '%' nor '+'. *)
Definition plain (s : string) : Prop :=
  forall i, String.get i s <> Some "%"%char /\ String.get i s <> Some "+"%char.

(** Whether [t] starts with two hex digits. *)
Definition hex_pair (t : string) : bool :=
  match t with
  | String a (String b _) => url.ishex a && url.ishex b
  | _ => false
  end.

(** ** A scheduler's choices *)


(** ** Arithmetic of [int] *)

Lemma wrap64_id z : min_int <= z <= max_int -> wrap64 z = z.
Proof.
  unfold wrap64, min_int, max_int. intros H.
  rewrite Z.mod_small by lia. lia.
Qed.

Lemma wrap64_succ z : add64 (wrap64 z) 1 = wrap64 (z + 1).
Proof.
  unfold add64, wrap64.
  replace ((z + 2 ^ 63) mod 2 ^ 64 - 2 ^ 63 + 1 + 2 ^ 63)
    with ((z + 2 ^ 63) mod 2 ^ 64 + 1) by lia.
  rewrite Zplus_mod_idemp_l. f_equal. f_equal. lia.
Qed.

(** ** Counting lemmas *)

Lemma markers_app l1 l2 : markers (l1 ++ l2) = (markers l1 + markers l2)%nat.
Proof. unfold markers. by rewrite filter_app, length_app. Qed.

Lemma successes_app l1 l2 :
  successes (l1 ++ l2) = (successes l1 + successes l2)%nat.
Proof. unfold successes. by rewrite filter_app, length_app. Qed.

Lemma markers_one x :
  markers [x] = if is_errCloseSentinel x then 1%nat else 0%nat.
Proof.
  unfold markers. rewrite filter_cons, filter_nil.
  destruct (is_errCloseSentinel x); by case_decide.
Qed.

Lemma successes_one x : successes [x] = if is_nil x then 1%nat else 0%nat.
Proof.
  unfold successes. rewrite filter_cons, filter_nil.
  destruct (is_nil x); by case_decide.
Qed.

Lemma markers_cons x l :
  markers (x :: l) = (markers [x] + markers l)%nat.
Proof. by rewrite <- markers_app. Qed.

Lemma sentinel_is_marker : is_errCloseSentinel errCloseSentinel = true.
Proof. reflexivity. Qed.

Lemma sentinel_not_nil res : is_errCloseSentinel res = true -> is_nil res = false.
Proof. by destruct res. Qed.

Lemma markers_le_length l : (markers l <= length l)%nat.
Proof. unfold markers. apply length_filter. Qed.

Lemma followed_mono a b l : (a <= b)%nat -> followed a l -> followed b l.
Proof.
  intros Hab. induction l as [|x l IH]; simpl; [done|].
  intros [H1 H2]. split; [|by apply IH]. intros Hx. specialize (H1 Hx). lia.
Qed.

Lemma followed_snoc_outcome a l x :
  (0 < a)%nat -> followed a l -> followed a (l ++ [x]).
Proof.
  intros Ha. induction l as [|y l IH]; simpl.
  - intros _. split; [intros _; lia | done].
  - intros [H1 H2]. split; [|by apply IH].
    intros Hy. rewrite markers_app. specialize (H1 Hy). lia.
Qed.

Lemma followed_snoc_marker a l x :
  is_errCloseSentinel x = true -> followed (S a) l -> followed a (l ++ [x]).
Proof.
  intros Hx. induction l as [|y l IH]; simpl.
  - intros _. split; [congruence | done].
  - intros [H1 H2]. split; [|by apply IH].
    intros Hy. rewrite markers_app, markers_one, Hx. specialize (H1 Hy). lia.
Qed.

Lemma followed_none l : followed 0 l -> markers l = 0%nat -> l = [].
Proof.
  destruct l as [|x l]; [done|]. simpl. intros [H1 _].
  rewrite markers_cons, markers_one.
  destruct (is_errCloseSentinel x); [lia|].
  intros Hm. specialize (H1 eq_refl). lia.
Qed.

Lemma total_app f l1 l2 : total f (l1 ++ l2) = (total f l1 + total f l2)%nat.
Proof. apply sum_list_with_app. Qed.

Lemma total_insert f (l : list Worker) i x y :
  l !! i = Some x ->
  (total f (<[i := y]> l) + f x = total f l + f y)%nat.
Proof.
  revert i. induction l as [|z l IH]; intros [|i] Hi; simplify_eq/=; [lia|].
  specialize (IH _ Hi). unfold total in *. lia.
Qed.

Lemma total_insert_same f (l : list Worker) i x y :
  l !! i = Some x -> f y = f x -> total f (<[i := y]> l) = total f l.
Proof. intros Hi Hf. pose proof (total_insert f l i x y Hi). lia. Qed.

Lemma total_all_one f (l : list Worker) :
  Forall (fun w => (f w <= 1)%nat) l -> (length l <= total f l)%nat ->
  Forall (fun w => f w = 1%nat) l.
Proof.
  induction 1 as [|x l Hx Hl IH]; simpl; [constructor|].
  intros Hle.
  assert (total f l <= length l)%nat as Hub.
  { clear -Hl. induction Hl; simpl; [lia|]. unfold total in *. simpl. lia. }
  unfold total in *. simpl in Hle.
  constructor; [lia|]. apply IH. lia.
Qed.

Lemma total_const f (l : list Worker) k :
  Forall (fun w => f w = k) l -> total f l = (length l * k)%nat.
Proof.
  induction 1 as [|x l Hx Hl IH]; simpl; [done|].
  unfold total in *. simpl. lia.
Qed.

(** ** The invariant holds in every reachable state *)

Lemma worker_ok_reader rd rd' wk :
  (rd = ReaderDone -> rd' = ReaderDone) -> worker_ok rd wk -> worker_ok rd' wk.
Proof.
  intros Hrd [Hc Hw]. split; [done|].
  destruct (pc wk); try done; destruct Hw as [Hd Hw]; split; auto.
Qed.

Lemma worker_ok_balance rd wk :
  worker_ok rd wk -> (markers (emitted wk) + alive wk = 1)%nat.
Proof.
  intros [_ Hw]. unfold alive. destruct (pc wk).
  - destruct Hw as (Hm & _). lia.
  - destruct Hw as (_ & Hm & _). lia.
  - destruct Hw as (_ & Hm & _). lia.
  - destruct Hw as (_ & Hm & _). lia.
  - destruct Hw as (_ & out & -> & Hm & _).
    rewrite markers_app, Hm, markers_one, sentinel_is_marker. lia.
Qed.

Lemma worker_ok_finished rd wk :
  worker_ok rd wk -> markers (emitted wk) = 1%nat ->
  rd = ReaderDone /\ length (emitted wk) = S (length (pulled wk)).
Proof.
  intros [_ Hw] Hm. destruct (pc wk).
  - destruct Hw as [Hz _]. lia.
  - destruct Hw as (_ & Hz & _). lia.
  - destruct Hw as (_ & Hz & _). lia.
  - destruct Hw as (_ & Hz & _). lia.
  - destruct Hw as (Hd & out & -> & _ & Hl). split; [done|].
    rewrite length_app. simpl. lia.
Qed.

Lemma has_summary_snoc l x :
  has_summary (l ++ [x])
  = has_summary l || match x with LogProcessed _ _ => true | _ => false end.
Proof. unfold has_summary. rewrite existsb_app. simpl. by rewrite orb_false_r. Qed.

Lemma Inv_set_env inp s e :
  Inv inp s -> (init_heap <= heap_next e)%nat -> has_summary (log e) = false ->
  Inv inp (set_env e s).
Proof. intros [] ??. by constructor. Qed.

Lemma Inv_log_Fatal inp s l :
  Inv inp s -> match l with LogProcessed _ _ => False | _ => True end ->
  Inv_proc inp (log_Fatal l s).
Proof.
  intros HI Hl. split; [|done]. simpl. apply Inv_set_env; [done| |].
  - simpl. apply HI.
  - simpl. rewrite has_summary_snoc, (inv_log _ _ HI). by destruct l.
Qed.

Lemma Inv_panic inp s msg : Inv inp s -> Inv_proc inp (panic msg s).
Proof.
  intros HI. split; [|done]. simpl. apply Inv_set_env; [done| |].
  - simpl. apply HI.
  - simpl. by rewrite has_summary_snoc, (inv_log _ _ HI).
Qed.

Lemma record_of_two (line : list string) :
  len line = 2 ->
  line = [default ""%string (line !! 0%nat); default ""%string (line !! 1%nat)].
Proof.
  unfold len. destruct line as [|a [|b [|c l]]]; simpl; intros; try lia; done.
Qed.

Lemma readerLoop_step_inv inp s p :
  Inv inp s -> results_closed s = false -> readerLoop_step s = Some p ->
  Inv_proc inp p.
Proof.
  intros HI Hcl. unfold readerLoop_step.
  destruct (reader s) as [i rest|wi i rest|] eqn:Hr; [|done|done].
  pose proof (inv_reader _ _ HI) as Hro. unfold reader_ok in Hro.
  rewrite Hr in Hro. destruct Hro as (pre & Hpre & Hwf & Hpt).
  destruct rest as [|[line|err] rest].
  - intros [= <-]. split; [|done]. simpl. destruct HI. constructor; simpl; try done.
    + eapply Forall_impl; [done|]. intros wk. apply worker_ok_reader.
      by rewrite Hr.
    + unfold reader_ok. simpl. rewrite app_nil_r in Hpre. by subst pre.
  - destruct (len line =? 2) eqn:Hlen; simpl.
    + intros [= <-]. apply Z.eqb_eq in Hlen. split; [|done]. simpl.
      destruct HI. constructor; simpl; try done.
      * eapply Forall_impl; [done|]. intros wk. apply worker_ok_reader.
        by rewrite Hr.
      * unfold reader_ok. simpl. exists pre. split; [|done].
        by rewrite <- record_of_two.
    + intros [= <-]. by apply Inv_log_Fatal.
  - intros [= <-]. by apply Inv_log_Fatal.
Qed.

Lemma total_lookup_le f (l : list Worker) i x :
  l !! i = Some x -> (f x <= total f l)%nat.
Proof.
  revert i. induction l as [|z l IH]; intros [|i] Hi; simplify_eq/=.
  - unfold total. simpl. lia.
  - specialize (IH _ Hi). unfold total in *. simpl. lia.
Qed.

Lemma handoff_inv inp w s p :
  Inv inp s -> results_closed s = false -> handoff w s = Some p ->
  Inv_proc inp p.
Proof.
  intros HI Hcl. unfold handoff.
  destruct (reader s) as [|wi i rest|] eqn:Hr; [done| |done].
  destruct (workers s !! w) as [wk|] eqn:Hw; [|done].
  destruct (pc wk) eqn:Hpc; try done. intros [= <-].
  pose proof (inv_reader _ _ HI) as Hro. unfold reader_ok in Hro.
  rewrite Hr in Hro. destruct Hro as (pre & Hpre & Hwf & Hpt).
  pose proof (Forall_lookup_1 _ _ _ _ (inv_workers _ _ HI) Hw) as [Hctx Hwk].
  rewrite Hpc in Hwk. destruct Hwk as [Hm Hl].
  split; [|done]. destruct HI. constructor; simpl; try done.
  - apply Forall_insert.
    + eapply Forall_impl; [done|]. intros wk'. apply worker_ok_reader.
      by rewrite Hr.
    + split; [done|]. simpl. split; [by eexists|]. split; [done|].
      rewrite length_app. simpl. lia.
  - by rewrite (total_insert_same _ _ _ wk).
  - by rewrite (total_insert_same _ _ _ wk).
  - rewrite (total_insert_same _ _ _ wk); [done|done|].
    unfold alive. simpl. by rewrite Hpc.
  - unfold reader_ok. simpl. exists (pre ++ [ReadRecord [Bucket wi; Key wi]]).
    split; [by rewrite <- app_assoc|]. split.
    + apply Forall_app. split; [done|]. by constructor.
    + unfold pulled_total in *. simpl.
      pose proof (total_insert (fun w => length (pulled w)) _ _ _ (pull wi wk) Hw)
        as Ht.
      simpl in Ht. rewrite !length_app in *. simpl in *. lia.
Qed.

Lemma CopyFile_props tier ans wi e :
  (init_heap <= heap_next e)%nat -> has_summary (log e) = false ->
  is_errCloseSentinel (CopyFile tier ans wi e).1 = false /\
  (init_heap <= heap_next (CopyFile tier ans wi e).2)%nat /\
  has_summary (log (CopyFile tier ans wi e).2) = false.
Proof.
  intros Hh Hl. unfold CopyFile.
  destruct (url.QueryUnescape (Key wi)) as [key|bad]; [|done].
  destruct (GetObject_err ans) as [err|]; [done|].
  destruct (UploadStream_err ans) as [err|].
  - destruct (rootResponseError err) as [code|]; [|done].
    simpl. split; [|split; [lia|done]].
    unfold init_heap in Hh. simpl in Hh.
    destruct (heap_next e); [lia|done].
  - simpl. split; [done|]. split; [done|]. by rewrite has_summary_snoc, Hl.
Qed.

Lemma send_result_inv inp w wk v next s p :
  Inv inp s -> results_closed s = false ->
  workers s !! w = Some wk -> alive wk = 1%nat ->
  worker_ok (reader s) (emit v next wk) ->
  send_result w wk v next s = Some p ->
  Inv_proc inp p.
Proof.
  intros HI Hcl Hw Hal Hok. unfold send_result. rewrite Hcl.
  destruct (len (results s) <? results_cap s); [|done]. intros [= <-].
  pose proof (Forall_lookup_1 _ _ _ _ (inv_workers _ _ HI) Hw) as Hwk.
  pose proof (worker_ok_balance _ _ Hwk) as Hbal.
  pose proof (worker_ok_balance _ _ Hok) as Hbal'.
  pose proof (total_insert alive _ _ _ (emit v next wk) Hw) as Hta.
  split; [|done]. destruct HI. constructor; simpl; try done.
  - by apply Forall_insert.
  - pose proof (total_insert (fun w => length (emitted w)) _ _ _
                  (emit v next wk) Hw) as Ht.
    simpl in Ht. rewrite !length_app in *. simpl in *. lia.
  - pose proof (total_insert (fun w => markers (emitted w)) _ _ _
                  (emit v next wk) Hw) as Ht.
    simpl in Ht. rewrite !markers_app in *. lia.
  - simpl in Hbal'. rewrite markers_app, markers_one in Hbal'.
    destruct (is_errCloseSentinel v) eqn:Hv.
    + apply followed_snoc_marker; [done|].
      eapply followed_mono; [|done]. lia.
    + apply followed_snoc_outcome.
      * pose proof (total_lookup_le alive (<[w:=emit v next wk]> (workers s))
                      w (emit v next wk)) as Hle.
        rewrite list_lookup_insert_eq in Hle
          by (by eapply lookup_lt_Some). specialize (Hle eq_refl). lia.
      * eapply followed_mono; [|done]. lia.
  - unfold reader_ok, pulled_total in *. simpl.
    rewrite (total_insert_same _ _ _ wk); done.
Qed.

Lemma DoCopy_step_inv inp w ans s p :
  Inv inp s -> results_closed s = false -> DoCopy_step w ans s = Some p ->
  Inv_proc inp p.
Proof.
  intros HI Hcl. unfold DoCopy_step.
  destruct (workers s !! w) as [wk|] eqn:Hw; [|done].
  pose proof (Forall_lookup_1 _ _ _ _ (inv_workers _ _ HI) Hw) as [Hctx Hwk].
  destruct (pc wk) as [|workItem|err| |] eqn:Hpc.
  - (* the range loop ends *)
    destruct (reader s) eqn:Hr; try done. intros [= <-].
    destruct Hwk as [Hm Hl].
    split; [|done]. destruct HI. constructor; simpl; try done.
    + rewrite Hr in *. apply Forall_insert; [done|]. by split.
    + by rewrite (total_insert_same _ _ _ wk).
    + by rewrite (total_insert_same _ _ _ wk).
    + rewrite (total_insert_same _ _ _ wk); [done|done|].
      unfold alive. simpl. by rewrite Hpc.
    + unfold reader_ok, pulled_total in *. simpl. rewrite Hr in *.
      by rewrite (total_insert_same _ _ _ wk).
  - (* CopyFile *)
    rewrite Hctx. simpl.
    pose proof (CopyFile_props (azureTier s) ans workItem (env s)
                  (inv_heap _ _ HI) (inv_log _ _ HI)) as (Hs & Hh & Hl).
    destruct (CopyFile (azureTier s) ans workItem (env s)) as [err e].
    simpl in *. intros [= <-].
    destruct Hwk as (_ & Hm & Hlen).
    split; [|done]. destruct HI. constructor; simpl; try done.
    + apply Forall_insert; [done|]. by split.
    + by rewrite (total_insert_same _ _ _ wk).
    + by rewrite (total_insert_same _ _ _ wk).
    + rewrite (total_insert_same _ _ _ wk); [done|done|].
      unfold alive. simpl. by rewrite Hpc.
    + unfold reader_ok, pulled_total in *. simpl.
      by rewrite (total_insert_same _ _ _ wk).
  - (* the outcome is sent *)
    destruct Hwk as (Hs & Hm & Hlen).
    apply send_result_inv; try done; [by unfold alive; rewrite Hpc|].
    split; [done|]. simpl. rewrite markers_app, markers_one, Hs, Hm.
    rewrite length_app. simpl. split; [done|lia].
  - (* the marker is sent *)
    destruct Hwk as (Hd & Hm & Hlen).
    apply send_result_inv; try done; [by unfold alive; rewrite Hpc|].
    split; [done|]. simpl. split; [done|]. by exists (emitted wk).
  - done.
Qed.

Lemma Inv_set_main inp s m : Inv inp s -> Inv inp (set_main m s).
Proof. intros []. by constructor. Qed.

Lemma Inv_close_results inp s : Inv inp s -> Inv inp (close_results s).
Proof. intros []. by constructor. Qed.

Lemma Inv_set_results_cap inp s c : Inv inp s -> Inv inp (set_results_cap c s).
Proof. intros []. by constructor. Qed.

Lemma Inv_receive inp s res rest :
  Inv inp s -> results s = res :: rest ->
  Inv inp (set_received (received s ++ [res]) (set_results rest s)).
Proof.
  intros [] Hres. rewrite Hres in *. constructor; simpl; try done.
  - by rewrite <- app_assoc.
  - by rewrite <- app_assoc.
  - simpl in inv_followed0. tauto.
Qed.

Lemma aggregate_inv inp res ec ok seen s :
  Inv inp s -> results_closed s = false ->
  Inv_proc inp (aggregate res ec ok seen s).
Proof.
  intros HI Hcl. unfold aggregate.
  destruct (is_errCloseSentinel res && _).
  - split; [|done]. simpl. by apply Inv_close_results, Inv_set_main.
  - destruct res as [e|].
    + destruct (is_errCloseSentinel (Some e)).
      * split; [|done]. by apply Inv_set_main.
      * split; [|done]. simpl. apply Inv_set_env.
        -- by apply Inv_set_main.
        -- apply HI.
        -- simpl. by rewrite has_summary_snoc, (inv_log _ _ HI).
    + split; [|done]. by apply Inv_set_main.
Qed.

Lemma main_step_inv inp setup s p :
  Inv inp s -> results_closed s = false -> main_step setup s = Some p ->
  Inv_proc inp p.
Proof.
  intros HI Hcl. unfold main_step.
  destruct (main s) as [|i|ec ok seen] eqn:Hm.
  - destruct (_ <? 0); [intros [= <-]; by apply Inv_panic|].
    destruct (_ <? 0); [intros [= <-]; by apply Inv_panic|].
    intros [= <-]. split; [|done]. simpl.
    by apply Inv_set_main, Inv_set_results_cap.
  - destruct (i <? _).
    + destruct (NewS3Copier setup) as [[c|] [err|]|err] eqn:Hnew;
        intros [= <-];
        try (by apply Inv_log_Fatal); try (by apply Inv_panic).
      assert (ctx c = Background) as Hc.
      { destruct setup; simpl in Hnew; by simplify_eq. }
      split; [|done]. destruct HI. constructor; simpl; try done.
      * apply Forall_app. split; [done|]. by repeat constructor.
      * rewrite total_app. unfold total at 2. simpl. lia.
      * rewrite total_app. unfold total at 2. simpl. lia.
      * eapply followed_mono; [|done]. rewrite total_app. lia.
      * unfold reader_ok, pulled_total in *. simpl.
        rewrite total_app. unfold total at 2 4 6. simpl.
        by rewrite !Nat.add_0_r.
    + intros [= <-]. split; [|done]. by apply Inv_set_main.
  - destruct (results s) as [|res rest] eqn:Hres.
    + by rewrite Hcl.
    + intros [= <-]. apply aggregate_inv; [|done]. by apply Inv_receive.
Qed.

Lemma exec_inv inp m s p :
  Inv inp s -> results_closed s = false -> exec m s = Some p ->
  Inv_proc inp p.
Proof.
  destruct m; simpl; eauto using readerLoop_step_inv, handoff_inv,
    DoCopy_step_inv, main_step_inv.
Qed.

Lemma start_inv possible fl inp : Inv_proc inp (start possible fl inp).
Proof.
  unfold start.
  destruct (flag_Parse possible (azureTierArgs fl) _) as [tier err].
  set (s := {| flags := fl; azureTier := tier |}).
  assert (Inv inp s) as HI.
  { constructor; simpl; try done. unfold reader_ok. simpl.
    exists []. by split. }
  destruct err as [e|].
  - split; [|done]. simpl. apply Inv_set_env; [done| |].
    + simpl. unfold init_heap. simpl. lia.
    + reflexivity.
  - destruct (String.eqb _ _); [by split|].
    destruct (open_err inp); [by apply Inv_log_Fatal | by split].
Qed.

Lemma reachable_inv possible fl inp p :
  reachable possible fl inp p -> Inv_proc inp p.
Proof.
  unfold reachable. intros H.
  eapply (rtc_ind_r (fun q => Inv_proc inp q)); [apply start_inv| |exact H].
  intros y z _ Hstep IH. destruct Hstep as [m s q Hexec].
  destruct IH as [HI Hcl]. by eapply exec_inv.
Qed.

(** ** The counters of the aggregating loop *)

Lemma agg_ok_frame N s p :
  main (state_of p) = main s ->
  length (workers (state_of p)) = length (workers s) ->
  received (state_of p) = received s ->
  exit_code p <> Some 0 ->
  agg_ok N (Running s) -> agg_ok N p.
Proof.
  unfold agg_ok, len. simpl. intros -> -> -> Hc.
  destruct (main s); [tauto|tauto|].
  destruct (exit_code p) as [[| |]|] eqn:He; done.
Qed.

Lemma readerLoop_step_agg N s p :
  readerLoop_step s = Some p -> agg_ok N (Running s) -> agg_ok N p.
Proof.
  unfold readerLoop_step. intros H. apply agg_ok_frame;
    repeat case_match; simplify_eq/=; done.
Qed.

Lemma handoff_agg N w s p :
  handoff w s = Some p -> agg_ok N (Running s) -> agg_ok N p.
Proof.
  unfold handoff. intros H. apply agg_ok_frame;
    repeat case_match; simplify_eq/=; rewrite ?length_insert; done.
Qed.

Lemma DoCopy_step_agg N w ans s p :
  DoCopy_step w ans s = Some p -> agg_ok N (Running s) -> agg_ok N p.
Proof.
  unfold DoCopy_step, send_result. intros H. apply agg_ok_frame;
    repeat case_match; simplify_eq/=; rewrite ?length_insert; done.
Qed.

Lemma aggregate_agg N res rest s ec ok seen :
  1 <= N <= max_int ->
  main s = Aggregating ec ok seen -> results s = res :: rest ->
  agg_ok N (Running s) ->
  agg_ok N (aggregate res ec ok seen
              (set_received (received s ++ [res]) (set_results rest s))).
Proof.
  intros HN Hm Hres. unfold agg_ok. simpl. rewrite Hm.
  intros (Hlen & Hec & Hok & Hpos & Hseen).
  unfold aggregate, max_int in *.
  pose proof (markers_one res) as Hm1. pose proof (successes_one res) as Hs1.
  destruct (is_errCloseSentinel res) eqn:Hs; simpl.
  - rewrite (sentinel_not_nil _ Hs) in Hs1.
    assert (sub64 ec 1 = ec - 1) as Hsub.
    { unfold sub64. apply wrap64_id. unfold min_int, max_int. lia. }
    rewrite Hsub. destruct (ec - 1 =? 0) eqn:Hz; simpl.
    + apply Z.eqb_eq in Hz. rewrite markers_app, successes_app, Hm1, Hs1.
      rewrite Nat.add_0_r. unfold len in *. rewrite length_app. simpl.
      repeat split; try done; try lia.
      rewrite Hseen. f_equal. lia.
    + apply Z.eqb_neq in Hz. destruct res as [e|]; [|done]. simpl.
      rewrite markers_app, successes_app, Hm1, Hs1.
      rewrite Nat.add_0_r. unfold len in *. rewrite length_app. simpl.
      repeat split; try done; try lia.
      rewrite Hseen, wrap64_succ. f_equal. lia.
  - destruct res as [e|]; simpl; rewrite markers_app, successes_app, Hm1, Hs1;
      unfold len in *; rewrite length_app; simpl.
    + rewrite !Nat.add_0_r. repeat split; try done.
      rewrite Hseen, wrap64_succ. f_equal. lia.
    + rewrite Nat.add_0_r. repeat split; try done.
      * rewrite Hok, wrap64_succ. f_equal. lia.
      * rewrite Hseen, wrap64_succ. f_equal. lia.
Qed.

Lemma main_step_agg N setup s p :
  1 <= N <= max_int -> concurrency (flags s) = N ->
  results_closed s = false ->
  main_step setup s = Some p -> agg_ok N (Running s) -> agg_ok N p.
Proof.
  intros HN HfN Hcl. unfold main_step. rewrite HfN.
  destruct (main s) as [|i|ec ok seen] eqn:Hm.
  - destruct (_ <? 0);
      [intros [= <-]; apply agg_ok_frame; by rewrite ?Hm|].
    destruct (_ <? 0);
      [intros [= <-]; apply agg_ok_frame; by rewrite ?Hm|].
    intros [= <-]. unfold agg_ok. simpl. rewrite Hm.
    intros (Hz & -> & _). unfold max_int in HN. repeat split; try done; lia.
  - destruct (i <? N) eqn:Hi.
    + apply Z.ltb_lt in Hi.
      destruct (NewS3Copier setup) as [[c|] [err|]|err];
        intros [= <-]; try (apply agg_ok_frame; by rewrite ?Hm).
      unfold agg_ok. simpl. rewrite Hm. intros (-> & Hle & -> & _).
      unfold len in *. rewrite length_app. simpl.
      assert (add64 (Z.of_nat (length (workers s))) 1
              = Z.of_nat (length (workers s)) + 1) as ->.
      { unfold add64. apply wrap64_id. unfold min_int, max_int in *. lia. }
      repeat split; try done; lia.
    + apply Z.ltb_ge in Hi. intros [= <-].
      unfold agg_ok. simpl. rewrite Hm. intros (-> & Hle & -> & _).
      change (markers []) with 0%nat. change (successes []) with 0%nat.
      unfold max_int in HN. repeat split; try done; lia.
  - destruct (results s) as [|res rest] eqn:Hres; [by rewrite Hcl|].
    intros [= <-]. by apply aggregate_agg.
Qed.

Lemma exec_flags m s p : exec m s = Some p -> flags (state_of p) = flags s.
Proof.
  destruct m; simpl;
    unfold readerLoop_step, handoff, DoCopy_step, send_result, main_step, aggregate;
    intros H; repeat case_match; simplify_eq/=; done.
Qed.

Lemma start_flags possible fl inp : flags (state_of (start possible fl inp)) = fl.
Proof. unfold start. repeat case_match; done. Qed.

Lemma reachable_flags possible fl inp p :
  reachable possible fl inp p -> flags (state_of p) = fl.
Proof.
  unfold reachable. intros H.
  eapply (rtc_ind_r (fun q => flags (state_of q) = fl));
    [apply start_flags| |exact H].
  intros y z _ [m s q Hexec] IH. simpl in IH.
  by rewrite (exec_flags _ _ _ Hexec).
Qed.

Lemma start_agg possible fl inp :
  agg_ok (concurrency fl) (start possible fl inp).
Proof. unfold start, agg_ok. repeat case_match; simplify_eq/=; done. Qed.

Lemma reachable_agg possible fl inp p :
  1 <= concurrency fl <= max_int ->
  reachable possible fl inp p -> agg_ok (concurrency fl) p.
Proof.
  intros HN H. unfold reachable in H.
  eapply (rtc_ind_r (fun q => agg_ok (concurrency fl) q));
    [apply start_agg| |exact H].
  intros y z Hy Hstep IH. destruct Hstep as [m s q Hexec].
  pose proof (reachable_inv _ _ _ _ Hy) as [_ Hcl].
  pose proof (reachable_flags _ _ _ _ Hy) as Hfl. simpl in Hfl.
  destruct m; simpl in Hexec.
  - by eapply readerLoop_step_agg.
  - by eapply handoff_agg.
  - by eapply DoCopy_step_agg.
  - eapply main_step_agg; try done. by rewrite Hfl.
Qed.

(** ** The end of a run: [main] has returned *)

Lemma total_succ f g (l : list Worker) :
  Forall (fun w => f w = S (g w)) l ->
  total f l = (total g l + length l)%nat.
Proof.
  induction 1 as [|x l Hx Hl IH]; [done|].
  unfold total in *. simpl. lia.
Qed.

Lemma run_end possible fl inp p :
  1 <= concurrency fl <= max_int ->
  reachable possible fl inp p -> exit_code p = Some 0 ->
  exists seenOk seen,
    main (state_of p) = Aggregating 0 seenOk seen /\
    results (state_of p) = [] /\
    Forall (fun w => pc w = Finished) (workers (state_of p)) /\
    len (workers (state_of p)) = concurrency fl /\
    reader (state_of p) = ReaderDone /\
    Forall (fun r => well_formed r = true) (reads inp) /\
    markers (received (state_of p)) = Z.to_nat (concurrency fl) /\
    len (received (state_of p)) = len (reads inp) + concurrency fl /\
    seenOk = wrap64 (Z.of_nat (successes (received (state_of p)))) /\
    seen = wrap64 (len (reads inp) + concurrency fl - 1).
Proof.
  intros HN Hr Hex.
  pose proof (reachable_agg _ _ _ _ HN Hr) as Ha.
  pose proof (reachable_inv _ _ _ _ Hr) as [HI _].
  unfold agg_ok in Ha. set (s := state_of p) in *.
  destruct (main s) as [|i|ec ok seen] eqn:Hm; [tauto|tauto|].
  rewrite Hex in Ha. destruct Ha as (Hlen & Hec & Hok & Hz & Hseen).
  subst ec. unfold len in *.
  pose proof (inv_workers _ _ HI) as Hws.
  pose proof (inv_markers _ _ HI) as Hmk. rewrite markers_app in Hmk.
  assert (Forall (fun w => markers (emitted w) = 1%nat) (workers s)) as Hone.
  { apply total_all_one; [|lia].
    eapply Forall_impl; [exact Hws|]. intros w Hw. simpl.
    pose proof (worker_ok_balance _ _ Hw). lia. }
  pose proof (total_const _ _ _ Hone) as Htot.
  assert (Forall (fun w => reader s = ReaderDone
                           /\ length (emitted w) = S (length (pulled w))
                           /\ alive w = 0%nat) (workers s)) as Hfin.
  { apply Forall_forall. intros w Hin.
    pose proof (proj1 (Forall_forall _ _) Hws w Hin) as Hw.
    pose proof (proj1 (Forall_forall _ _) Hone w Hin) as H1. simpl in H1.
    pose proof (worker_ok_balance _ _ Hw).
    destruct (worker_ok_finished _ _ Hw H1). repeat split; [done|done|lia]. }
  assert (total alive (workers s) = 0%nat) as Hal.
  { rewrite (total_const alive _ 0%nat); [lia|].
    eapply Forall_impl; [exact Hfin|]. simpl. tauto. }
  assert (results s = []) as Hres.
  { apply followed_none; [|lia]. rewrite <- Hal. apply HI. }
  assert (reader s = ReaderDone) as Hrd.
  { destruct (workers s) as [|w ws]; [simpl in Hlen; lia|].
    by apply Forall_cons in Hfin as [[? _] _]. }
  pose proof (inv_reader _ _ HI) as Hro. unfold reader_ok in Hro.
  rewrite Hrd in Hro. destruct Hro as [Hwf Hpt]. unfold pulled_total in Hpt.
  pose proof (inv_count _ _ HI) as Hcnt. rewrite Hres, app_nil_r in Hcnt.
  rewrite (total_succ _ (fun w => length (pulled w))) in Hcnt
    by (eapply Forall_impl; [exact Hfin|]; simpl; tauto).
  exists ok, seen. repeat split; try done.
  - by rewrite Hz.
  - eapply Forall_impl; [exact Hfin|]. intros w (_ & _ & Hw).
    unfold alive in Hw. by destruct (pc w).
  - lia.
  - lia.
  - rewrite Hseen. f_equal. lia.
Qed.

(** ** Strings: the container name and the key *)

Lemma string_strong_ind (P : string -> Prop) :
  (forall s, (forall t, (String.length t < String.length s)%nat -> P t) -> P s) ->
  forall s, P s.
Proof.
  intros step s. remember (String.length s) as n eqn:Hn.
  revert s Hn. induction n as [n IH] using lt_wf_ind.
  intros s ->. apply step. intros t Ht. by eapply IH.
Qed.

Lemma replace_dot_cons c rest :
  strings.replace_from "." "-" 0 (String c rest)
  = String (if Ascii.eqb c "." then "-"%char else c)
           (strings.replace_from "." "-" 0 rest).
Proof.
  assert (String.prefix "." (String c rest) = Ascii.eqb c ".") as Hp.
  { unfold String.prefix.
    destruct (ascii_dec "." c) as [<-|Hne]; [by destruct rest|].
    destruct (Ascii.eqb_spec c "."); congruence. }
  change (strings.replace_from "." "-" 0 (String c rest))
    with (if String.prefix "." (String c rest)
          then String.append "-" (strings.replace_from "." "-" 0 rest)
          else String c (strings.replace_from "." "-" 0 rest)).
  rewrite Hp. by destruct (Ascii.eqb c ".").
Qed.

Lemma replace_dot_length s :
  String.length (strings.ReplaceAll s "." "-") = String.length s.
Proof.
  unfold strings.ReplaceAll. induction s as [|c rest IH]; [done|].
  rewrite replace_dot_cons. simpl. by rewrite IH.
Qed.

Lemma replace_dot_get s i :
  String.get i (strings.ReplaceAll s "." "-")
  = option_map (fun c => if Ascii.eqb c "." then "-"%char else c)
               (String.get i s).
Proof.
  unfold strings.ReplaceAll. revert i. induction s as [|c rest IH]; intros i.
  - by destruct i.
  - rewrite replace_dot_cons. destruct i as [|i]; [done|]. simpl. apply IH.
Qed.

Lemma scan_grows s : forall n hp n1 hp1,
  url.scan s n hp = inr (n1, hp1) ->
  (n <= n1)%nat /\ (hp = true -> hp1 = true).
Proof.
  induction s as [s IH] using string_strong_ind. intros n hp n1 hp1.
  destruct s as [|c rest]; simpl.
  - intros [= -> ->]. done.
  - destruct (Ascii.eqb c "%").
    + destruct rest as [|a [|b rest']]; try done.
      destruct (url.ishex a && url.ishex b); [|done].
      intros H. apply IH in H; [|simpl; lia]. destruct H. split; [lia|done].
    + destruct (Ascii.eqb c "+").
      * intros H. apply IH in H; [|simpl; lia]. destruct H. split; [lia|auto].
      * intros H. apply IH in H; [|simpl; lia]. done.
Qed.

Lemma scan_plain s : forall n hp,
  url.scan s n hp = inr (n, false) -> url.build s = s.
Proof.
  induction s as [s IH] using string_strong_ind. intros n hp.
  destruct s as [|c rest]; simpl; [done|].
  destruct (Ascii.eqb c "%").
  - destruct rest as [|a [|b rest']]; try done.
    destruct (url.ishex a && url.ishex b); [|done].
    intros H. apply scan_grows in H. lia.
  - destruct (Ascii.eqb c "+").
    + intros H. apply scan_grows in H. destruct H as [_ H]. by specialize (H eq_refl).
    + intros H. f_equal. eapply IH; [simpl; lia|done].
Qed.

Lemma scan_app s1 : forall n hp n1 hp1 s2,
  url.scan s1 n hp = inr (n1, hp1) ->
  url.scan (s1 +:+ s2) n hp = url.scan s2 n1 hp1
  /\ url.build (s1 +:+ s2) = url.build s1 +:+ url.build s2.
Proof.
  induction s1 as [s1 IH] using string_strong_ind. intros n hp n1 hp1 s2.
  destruct s1 as [|c rest]; simpl.
  - by intros [= -> ->].
  - destruct (Ascii.eqb c "%").
    + destruct rest as [|a [|b rest']]; simpl; try done.
      destruct (url.ishex a && url.ishex b); [|done].
      intros H. apply (IH rest' ltac:(simpl; lia) _ _ _ _ s2) in H.
      destruct H as [-> ->]. done.
    + destruct (Ascii.eqb c "+").
      * intros H. apply (IH rest ltac:(simpl; lia) _ _ _ _ s2) in H.
        destruct H as [-> ->]. done.
      * intros H. apply (IH rest ltac:(simpl; lia) _ _ _ _ s2) in H.
        destruct H as [-> ->]. done.
Qed.

Lemma scan_restart s : forall n hp n1 hp1 n' hp',
  url.scan s n hp = inr (n1, hp1) ->
  exists n1' hp1', url.scan s n' hp' = inr (n1', hp1').
Proof.
  induction s as [s IH] using string_strong_ind. intros n hp n1 hp1 n' hp'.
  destruct s as [|c rest]; simpl; [by eauto|].
  destruct (Ascii.eqb c "%").
  - destruct rest as [|a [|b rest']]; try done.
    destruct (url.ishex a && url.ishex b); [|done].
    apply IH. simpl. lia.
  - destruct (Ascii.eqb c "+"); apply IH; simpl; lia.
Qed.

Lemma QueryUnescape_ok s d :
  url.QueryUnescape s = inl d ->
  d = url.build s /\ exists n hp, url.scan s 0 false = inr (n, hp).
Proof.
  unfold url.QueryUnescape.
  destruct (url.scan s 0 false) as [bad|[n hp]] eqn:Hs; [done|].
  destruct ((n =? 0)%nat && negb hp) eqn:Hb; intros [= <-].
  - apply andb_true_iff in Hb as [Hn Hp]. apply Nat.eqb_eq in Hn. subst n.
    destruct hp; [done|]. split; [|by eauto]. symmetry. by eapply scan_plain.
  - split; [done|by eauto].
Qed.

Lemma QueryUnescape_plus s1 s2 d1 d2 :
  url.QueryUnescape s1 = inl d1 -> url.QueryUnescape s2 = inl d2 ->
  url.QueryUnescape (s1 +:+ "+" +:+ s2) = inl (d1 +:+ " " +:+ d2).
Proof.
  intros H1 H2.
  apply QueryUnescape_ok in H1 as [-> (n1 & hp1 & Hs1)].
  apply QueryUnescape_ok in H2 as [-> (n2 & hp2 & Hs2)].
  destruct (scan_app _ _ _ _ _ ("+" +:+ s2) Hs1) as [Hs Hb].
  destruct (scan_restart _ _ _ _ _ n1 true Hs2) as (n & hp & Hs2').
  pose proof (scan_grows _ _ _ _ _ Hs2') as [_ Hp]. specialize (Hp eq_refl).
  subst hp. unfold url.QueryUnescape. rewrite Hs.
  change (url.scan ("+" +:+ s2) n1 hp1) with (url.scan s2 n1 true).
  rewrite Hs2'. simpl negb. rewrite andb_false_r. by rewrite Hb.
Qed.

(** ** Schedules *)

Lemma run_rtc ms : forall p q, run ms p = Some q -> rtc step p q.
Proof.
  induction ms as [|m ms IH]; simpl; intros p q.
  - by intros [= ->].
  - destruct p as [s|c s]; [|done].
    destruct (exec m s) as [p'|] eqn:Hm; [|done].
    intros H. eapply rtc_l; [by econstructor|by apply IH].
Qed.

Lemma final_of_reachable ms fl inp :
  reachable sample_tiers fl inp (final_of ms fl inp).
Proof.
  unfold final_of, reachable.
  destruct (run ms (start sample_tiers fl inp)) as [q|] eqn:Hr; simpl.
  - by apply run_rtc with ms.
  - apply rtc_refl.
Qed.


Lemma CopyFile_calls tier ans wi e :
  calls (CopyFile tier ans wi e).2 = calls e ++ requests tier ans wi e.
Proof.
  unfold requests, CopyFile.
  repeat case_match; simpl; rewrite <- ?app_assoc;
    rewrite ?drop_app_length, ?drop_all, ?app_nil_r; done.
Qed.

Lemma requests_decoded tier ans wi e key :
  url.QueryUnescape (Key wi) = inl key ->
  requests tier ans wi e
  = S3GetObject (Bucket wi) key
    :: match GetObject_err ans with
       | Some _ => []
       | None =>
           [AzUploadStream (strings.ReplaceAll (Bucket wi) "." "-") key
                           (AzureTier_Get tier);
            BodyClose]
       end.
Proof.
  intros Hk. unfold requests, CopyFile. rewrite Hk.
  repeat case_match; simpl; rewrite <- ?app_assoc;
    rewrite ?drop_app_length; done.
Qed.

Lemma markers_outcomes l : (markers l + outcomes l = length l)%nat.
Proof.
  unfold markers, outcomes. induction l as [|x l IH]; [done|].
  rewrite !filter_cons. destruct (is_errCloseSentinel x);
    repeat case_decide; simpl; try done; lia.
Qed.

Lemma total_plus f g (l : list Worker) :
  total (fun w => (f w + g w)%nat) l = (total f l + total g l)%nat.
Proof.
  induction l as [|x l IH]; [done|]. unfold total in *. simpl. lia.
Qed.

(** * The claims *)

(** C1 (the code departs from the claim). The summary of line 223,
    "Processed %d (%d errors)", is never printed: no reachable state of
    the process, exited or still running, has it in its log. The loop of
    [main] ends only through the [return] of line 210, right after
    [close(results)], and so line 223 is never reached. *)
Theorem summary_never_printed possible fl inp p :
  reachable possible fl inp p ->
  has_summary (log (env (state_of p))) = false.
Proof. intros Hr. apply (reachable_inv _ _ _ _ Hr). Qed.

(** With [-j 1] and an empty input the process exits with status 0 and
    an empty log. *)
Lemma summary_never_printed_witness :
  exit_code (final_of one_worker_no_input (flags_j 1 []) (stdin [])) = Some 0
  /\ log (env (state_of (final_of one_worker_no_input (flags_j 1 [])
                           (stdin [])))) = []
  /\ has_summary (log (env (state_of (final_of one_worker_no_input
                                        (flags_j 1 []) (stdin []))))) = false.
Proof.
  split; [reflexivity|]. split; [reflexivity|].
  apply (summary_never_printed sample_tiers (flags_j 1 []) (stdin [])).
  apply final_of_reachable.
Defined.

(** C2 (the code departs from the claim). When [main] has returned, the
    loop has received one outcome for each of the M input lines and one
    marker from each of the N workers, and [seen] is M + N - 1, not M:
    line 214 is reached for every marker but the last, so [seen] counts
    N - 1 markers besides the M outcomes. *)
Theorem seen_counts_markers possible fl inp p :
  1 <= concurrency fl <= max_int ->
  reachable possible fl inp p -> exit_code p = Some 0 ->
  outcomes (received (state_of p)) = length (reads inp) /\
  markers (received (state_of p)) = Z.to_nat (concurrency fl) /\
  final_counters p
  = Some (0,
          wrap64 (Z.of_nat (successes (received (state_of p)))),
          wrap64 (len (reads inp) + concurrency fl - 1)).
Proof.
  intros HN Hr Hex.
  destruct (run_end _ _ _ _ HN Hr Hex)
    as (ok & seen & Hm & _ & _ & _ & _ & _ & Hmk & Hlen & -> & ->).
  pose proof (markers_outcomes (received (state_of p))) as Hmo.
  unfold len in Hlen. split; [lia|]. split; [done|].
  unfold final_counters. by rewrite Hm.
Qed.

(** [-j 2] and one line: [seen] is 2 when [main] returns. *)
Lemma seen_counts_markers_witness :
  final_counters (final_of two_workers_one_item (flags_j 2 []) one_line)
  = Some (0, 1, 2).
Proof.
  refine (proj2 (proj2 (seen_counts_markers sample_tiers (flags_j 2 [])
                          one_line _ _ _ _))).
  - unfold max_int. simpl. lia.
  - apply final_of_reachable.
  - reflexivity.
Defined.

(** C3. For a pool of N >= 1 workers: before the loop of [main] nothing
    has been received and the process has not returned; in the loop
    [expectedCloses] is N minus the number of markers received so far
    (so it starts at N and goes down by one for each marker), it is
    never negative, and it is zero exactly when [main] has returned. *)
Theorem expectedCloses_counts_down possible fl inp p :
  1 <= concurrency fl <= max_int ->
  reachable possible fl inp p ->
  expectedCloses_ok (concurrency fl) p.
Proof.
  intros HN Hr. pose proof (reachable_agg _ _ _ _ HN Hr) as Ha.
  unfold agg_ok, expectedCloses_ok in *.
  destruct (main (state_of p)) as [|i|ec ok seen]; [tauto|tauto|].
  destruct Ha as (_ & Hec & _ & Hx). split; [done|].
  destruct (exit_code p) as [[| |]|]; destruct Hx as [Hx _];
    (split; [lia|]); split; intros; try done; lia.
Qed.

Lemma expectedCloses_counts_down_witness :
  expectedCloses_ok 2
    (final_of two_workers_one_item (flags_j 2 []) one_line).
Proof.
  apply (expectedCloses_counts_down sample_tiers (flags_j 2 []) one_line).
  - unfold max_int. simpl. lia.
  - apply final_of_reachable.
Defined.



(** C5. The container name is the bucket name with every '.' replaced
    by '-': same length, and at each position the same byte unless that
    byte is '.'. Every upload request of [CopyFile] names that
    container, whatever the key, the tier, the stores' answers and the
    state are: the name depends on the bucket alone. *)
Theorem container_name_mapping bucket :
  String.length (strings.ReplaceAll bucket "." "-") = String.length bucket /\
  (forall i,
      String.get i (strings.ReplaceAll bucket "." "-")
      = option_map (fun c => if Ascii.eqb c "." then "-"%char else c)
                   (String.get i bucket)) /\
  strings.ReplaceAll "my.bucket.name" "." "-" = "my-bucket-name"%string /\
  (forall tier ans key e,
      Forall (fun c => match c with
                       | AzUploadStream container _ _ =>
                           container = strings.ReplaceAll bucket "." "-"
                       | _ => True
                       end)
             (requests tier ans {| Bucket := bucket; Key := key |} e)).
Proof.
  split; [apply replace_dot_length|]. split; [apply replace_dot_get|].
  split; [reflexivity|]. intros tier ans key e.
  destruct (url.QueryUnescape key) as [k|bad] eqn:Hk.
  - rewrite (requests_decoded _ _ _ _ k) by done. simpl.
    destruct (GetObject_err ans); repeat constructor.
  - unfold requests, CopyFile. simpl. rewrite Hk. simpl.
    by rewrite drop_all.
Qed.



(** C7. A worker holding an item whose key does not decode: its
    [CopyFile] step makes no request to the stores and returns the
    decode error wrapped by [stacktrace.Propagate], which is neither nil
    nor the marker; the process keeps running. The worker's next step
    is the send of line 141: it waits while the results buffer is full,
    as any send does, and otherwise puts that error on the results
    stream, after which the worker is back at the head of its loop,
    ready for the next item. *)
Theorem decode_failure_is_an_outcome possible fl inp p w wk wi bad ans :
  reachable possible fl inp p -> exit_code p = None ->
  workers (state_of p) !! w = Some wk -> pc wk = AtCtx wi ->
  url.QueryUnescape (Key wi) = inr bad ->
  let s := state_of p in
  let err := Some (stacktraceError bad
                     ("unable to url decode " +:+ Bucket wi +:+ "/"
                      +:+ Key wi)) in
  let wk1 := set_pc (AtSend err) wk in
  let s1 := set_env (env s) (set_workers (<[w := wk1]> (workers s)) s) in
  let s2 := set_results (results s ++ [err])
              (set_workers (<[w := emit err AtRange wk1]> (workers s1)) s1) in
  DoCopy_step w ans s = Some (Running s1) /\
  is_errCloseSentinel err = false /\ is_nil err = false /\
  DoCopy_step w ans s1
  = (if len (results s) <? results_cap s then Some (Running s2) else None) /\
  (exists wk2, workers s2 !! w = Some wk2 /\ pc wk2 = AtRange
               /\ emitted wk2 = emitted wk ++ [err]).
Proof.
  intros Hr Hex Hw Hpc Hk. destruct p as [s|c s]; [|done]. simpl in *.
  pose proof (reachable_inv _ _ _ _ Hr) as [HI Hcl]. simpl in HI.
  pose proof (Forall_lookup_1 _ _ _ _ (inv_workers _ _ HI) Hw) as [Hctx _].
  pose proof (lookup_lt_Some _ _ _ Hw) as Hlt.
  split; [|split; [done|split; [done|split]]].
  - unfold DoCopy_step. rewrite Hw, Hpc, Hctx. simpl.
    unfold CopyFile. by rewrite Hk.
  - unfold DoCopy_step. simpl. rewrite list_lookup_insert_eq by done. simpl.
    unfold send_result. simpl. by rewrite Hcl.
  - eexists. split.
    + simpl. apply list_lookup_insert_eq. by rewrite length_insert.
    + done.
Qed.

(** The worker of a [-j 1] run holding the item [bucket, %zz]. *)
Lemma decode_failure_is_an_outcome_witness :
  let s := state_of (final_of worker_holds_item (flags_j 1 []) bad_key_line) in
  let err := Some (stacktraceError (EscapeError "%zz")
                     "unable to url decode bucket/%zz") in
  exists s1 s2,
    DoCopy_step 0 stores_ok s = Some (Running s1) /\
    DoCopy_step 0 stores_ok s1 = Some (Running s2) /\
    results s2 = [err] /\ calls (env s2) = [].
Proof.
  pose proof (decode_failure_is_an_outcome sample_tiers (flags_j 1 [])
                bad_key_line
                (final_of worker_holds_item (flags_j 1 []) bad_key_line)
                0%nat
                {| copier := {| ctx := Background |};
                   pc := AtCtx {| Bucket := "bucket"; Key := "%zz" |};
                   pulled := [{| Bucket := "bucket"; Key := "%zz" |}];
                   emitted := [] |}
                {| Bucket := "bucket"; Key := "%zz" |}
                (EscapeError "%zz") stores_ok
                (final_of_reachable _ _ _) eq_refl eq_refl eq_refl eq_refl)
    as (H1 & _ & _ & H2 & _).
  eexists _, _. split; [exact H1|]. split; [exact H2|]. split; reflexivity.
Defined.

(** C8. The history of every worker, at every line of [DoCopy]: before
    its marker the values it sent are outcomes only, one for each item
    it has received (one less while it holds an item or an outcome to
    send); once finished, what it sent is those outcomes followed by the
    one marker, and no step of the worker is enabled any more. *)
Theorem worker_emissions possible fl inp p w wk :
  reachable possible fl inp p ->
  workers (state_of p) !! w = Some wk ->
  match pc wk with
  | AtRange | AtSentinel =>
      markers (emitted wk) = 0%nat /\
      length (emitted wk) = length (pulled wk)
  | AtCtx _ | AtSend _ =>
      markers (emitted wk) = 0%nat /\
      S (length (emitted wk)) = length (pulled wk)
  | Finished =>
      (exists out, emitted wk = out ++ [errCloseSentinel] /\
                   markers out = 0%nat /\
                   length out = length (pulled wk)) /\
      forall ans, DoCopy_step w ans (state_of p) = None /\
                  handoff w (state_of p) = None
  end.
Proof.
  intros Hr Hw. pose proof (reachable_inv _ _ _ _ Hr) as [HI _].
  pose proof (Forall_lookup_1 _ _ _ _ (inv_workers _ _ HI) Hw) as [_ Hok].
  destruct (pc wk) eqn:Hpc; try tauto.
  split; [tauto|]. intros ans. unfold DoCopy_step, handoff.
  rewrite Hw, Hpc. split; [done|]. by destruct (reader _).
Qed.

(** Worker 0 of the [-j 2] run, which copied the one item. *)
Lemma worker_emissions_witness :
  exists wk,
    workers (state_of (final_of two_workers_one_item (flags_j 2 []) one_line))
      !! 0%nat = Some wk /\
    length (pulled wk) = 1%nat /\
    exists out, emitted wk = out ++ [errCloseSentinel] /\
                markers out = 0%nat /\ length out = length (pulled wk).
Proof.
  eexists. split; [reflexivity|]. split; [reflexivity|].
  refine (proj1 (worker_emissions sample_tiers (flags_j 2 []) one_line
                   (final_of two_workers_one_item (flags_j 2 []) one_line)
                   0%nat _ (final_of_reachable _ _ _) eq_refl)).
Defined.

(** C9. In every reachable state the marker is allocated, so that
    whatever [CopyFile] returns there is not the marker; no worker holds
    the marker as an outcome to send; and the markers on the results
    stream, received or waiting, are as many as the workers that have
    finished: each was sent by line 143. *)
Theorem sentinel_never_an_outcome possible fl inp p :
  reachable possible fl inp p ->
  (forall tier ans wi,
      is_errCloseSentinel (CopyFile tier ans wi (env (state_of p))).1 = false)
  /\ Forall (fun wk => match pc wk with
                       | AtSend err => is_errCloseSentinel err = false
                       | _ => True
                       end) (workers (state_of p))
  /\ (markers (received (state_of p) ++ results (state_of p))
      + total alive (workers (state_of p))
      = length (workers (state_of p)))%nat.
Proof.
  intros Hr. pose proof (reachable_inv _ _ _ _ Hr) as [HI _].
  split; [|split].
  - intros tier ans wi.
    apply CopyFile_props; [apply HI | apply HI].
  - eapply Forall_impl; [apply HI|]. intros wk [_ Hok]. simpl.
    destruct (pc wk); tauto.
  - rewrite (inv_markers _ _ HI), <- total_plus.
    rewrite (total_const _ _ 1%nat); [lia|].
    eapply Forall_impl; [apply HI|]. intros wk Hok. simpl.
    by eapply worker_ok_balance.
Qed.

(** An upload refused by Azure with a response error: the only path of
    [CopyFile] that allocates an [errorString], like the marker. *)
Lemma sentinel_never_an_outcome_witness :
  is_errCloseSentinel
    (CopyFile {| val := None |}
       {| GetObject_err := nil;
          UploadStream_err := Some (ResponseError "AuthorizationFailure") |}
       {| Bucket := "my.bucket"; Key := "k" |}
       (env (state_of (final_of worker_holds_item (flags_j 1 [])
                         bad_key_line)))).1 = false.
Proof.
  apply (proj1 (sentinel_never_an_outcome sample_tiers (flags_j 1 [])
                  bad_key_line _ (final_of_reachable _ _ _))).
Defined.

(** C10. A key with a literal '+' between two parts that decode: the
    key decodes to the two decoded parts with a space between them, and
    [CopyFile] names that decoded key in its request to the source and,
    when the download succeeds, in its request to the destination. *)
Theorem key_is_query_unescaped tier ans e bucket s1 s2 d1 d2 :
  url.QueryUnescape s1 = inl d1 -> url.QueryUnescape s2 = inl d2 ->
  let wi := {| Bucket := bucket; Key := s1 +:+ "+" +:+ s2 |} in
  let key := d1 +:+ " " +:+ d2 in
  url.QueryUnescape (Key wi) = inl key /\
  requests tier ans wi e
  = S3GetObject bucket key
    :: match GetObject_err ans with
       | Some _ => []
       | None =>
           [AzUploadStream (strings.ReplaceAll bucket "." "-") key
                           (AzureTier_Get tier);
            BodyClose]
       end.
Proof.
  intros H1 H2. simpl.
  pose proof (QueryUnescape_plus _ _ _ _ H1 H2) as Hk.
  split; [done|].
  by rewrite (requests_decoded tier ans
                {| Bucket := bucket; Key := s1 +:+ "+" +:+ s2 |} e _ Hk).
Qed.

Lemma key_is_query_unescaped_witness :
  url.QueryUnescape "a%20b+c" = inl "a b c"%string /\
  requests {| val := None |} stores_ok
           {| Bucket := "my.bucket"; Key := "a%20b+c" |} empty_env
  = [S3GetObject "my.bucket" "a b c";
     AzUploadStream "my-bucket" "a b c" None; BodyClose].
Proof.
  exact (key_is_query_unescaped {| val := None |} stores_ok empty_env
           "my.bucket" "a%20b" "c" "a b" "c" eq_refl eq_refl).
Defined.

(** * Further properties of the loader *)

(** ** Every move is one of the cases of [trans] *)

Lemma exec_trans m s p : exec m s = Some p -> trans s p.
Proof.
  destruct m as [|w|w ans|setup]; simpl.
  - unfold readerLoop_step.
    destruct (reader s) as [i [|[line|err] rest]|wi i rest|] eqn:Hr; try done.
    + intros [= <-]. by eapply t_eof.
    + destruct (len line =? 2) eqn:Hl; simpl; intros [= <-].
      * apply Z.eqb_eq in Hl. pose proof (record_of_two _ Hl) as Hrec.
        rewrite Hrec in Hr.
        eapply (t_record s i _ _ rest) in Hr. exact Hr.
      * apply Z.eqb_neq in Hl. by eapply t_fields.
    + intros [= <-]. by eapply t_read_error.
  - unfold handoff.
    destruct (reader s) as [|wi i rest|] eqn:Hr; try done.
    destruct (workers s !! w) as [wk|] eqn:Hw; [|done].
    destruct (pc wk) eqn:Hpc; try done. intros [= <-]. by eapply t_handoff.
  - unfold DoCopy_step.
    destruct (workers s !! w) as [wk|] eqn:Hw; [|done].
    destruct (pc wk) as [|wi|err| |] eqn:Hpc.
    + destruct (reader s) eqn:Hr; try done. intros [= <-].
      by eapply t_range_end.
    + destruct (ctx_Err (ctx (copier wk))) as [e|] eqn:Hc.
      * intros [= <-]. by eapply t_cancelled.
      * pose proof (t_copy s w wk wi ans Hw Hpc Hc) as Ht.
        destruct (CopyFile (azureTier s) ans wi (env s)) as [err e].
        intros [= <-]. exact Ht.
    + unfold send_result. destruct (results_closed s) eqn:Hcl.
      * intros [= <-]. eapply (t_send_closed s w wk err AtRange); try done.
        unfold sending. by rewrite Hpc.
      * destruct (len (results s) <? results_cap s) eqn:Hlt; [|done].
        intros [= <-]. apply Z.ltb_lt in Hlt. eapply t_send; try done.
        unfold sending. by rewrite Hpc.
    + unfold send_result. destruct (results_closed s) eqn:Hcl.
      * intros [= <-].
        eapply (t_send_closed s w wk errCloseSentinel Finished); try done.
        unfold sending. by rewrite Hpc.
      * destruct (len (results s) <? results_cap s) eqn:Hlt; [|done].
        intros [= <-]. apply Z.ltb_lt in Hlt. eapply t_send; try done.
        unfold sending. by rewrite Hpc.
    + done.
  - unfold main_step.
    destruct (main s) as [|i|ec ok seen] eqn:Hm.
    + destruct (mul64 2 (concurrency (flags s)) <? 0) eqn:H1.
      { intros [= <-]. apply Z.ltb_lt in H1. eapply t_make_panic; auto. }
      destruct (concurrency (flags s) <? 0) eqn:H2.
      { intros [= <-]. apply Z.ltb_lt in H2. eapply t_make_panic; auto. }
      apply Z.ltb_ge in H1, H2. intros [= <-]. by eapply t_make.
    + destruct (i <? concurrency (flags s)) eqn:Hi.
      * apply Z.ltb_lt in Hi. destruct setup; simpl; intros [= <-];
          try (by eapply t_spawn_fatal). by eapply t_spawn.
      * apply Z.ltb_ge in Hi. intros [= <-]. by eapply t_loop.
    + destruct (results s) as [|res rest] eqn:Hres.
      * destruct (results_closed s) eqn:Hcl; [|done]. intros [= <-].
        by eapply t_summary.
      * intros [= <-]. unfold aggregate.
        destruct (is_errCloseSentinel res) eqn:Hs; simpl.
        -- destruct (sub64 ec 1 =? 0) eqn:Hz.
           ++ apply Z.eqb_eq in Hz. rewrite Hz.
              by eapply (t_return s ec ok seen res rest).
           ++ apply Z.eqb_neq in Hz. destruct res as [e|]; [|done].
              by eapply (t_marker s ec ok seen (Some e) rest).
        -- destruct res as [e|].
           ++ by eapply t_failure.
           ++ by eapply t_success.
Qed.

Lemma reachable_trans_ind possible fl inp (P : Proc -> Prop) :
  P (start possible fl inp) ->
  (forall s q, reachable possible fl inp (Running s) -> P (Running s) ->
               trans s q -> P q) ->
  forall p, reachable possible fl inp p -> P p.
Proof.
  intros H0 Hstep p Hr. unfold reachable in Hr.
  eapply (rtc_ind_r (fun q => P q)); [exact H0| |exact Hr].
  intros y z Hy Hyz IH. destruct Hyz as [m s q Hexec].
  apply (Hstep s q); [exact Hy|exact IH|]. by eapply exec_trans.
Qed.

(** ** Counting lemmas, continued *)

Lemma count_if_app {A} (f : A -> bool) l1 l2 :
  count_if f (l1 ++ l2) = (count_if f l1 + count_if f l2)%nat.
Proof. unfold count_if. by rewrite List.filter_app, length_app. Qed.

Lemma count_if_one {A} (f : A -> bool) x :
  count_if f [x] = if f x then 1%nat else 0%nat.
Proof. unfold count_if. simpl. by destruct (f x). Qed.

Lemma count_if_le {A} (f : A -> bool) l : (count_if f l <= length l)%nat.
Proof. unfold count_if. apply List.filter_length_le. Qed.

Lemma outcomes_app l1 l2 :
  outcomes (l1 ++ l2) = (outcomes l1 + outcomes l2)%nat.
Proof. unfold outcomes. by rewrite filter_app, length_app. Qed.

Lemma outcomes_one x :
  outcomes [x] = if is_errCloseSentinel x then 0%nat else 1%nat.
Proof.
  unfold outcomes. rewrite filter_cons, filter_nil.
  destruct (is_errCloseSentinel x); by case_decide.
Qed.

Lemma total_le f g (l : list Worker) :
  Forall (fun w => (f w <= g w)%nat) l -> (total f l <= total g l)%nat.
Proof.
  induction 1 as [|x l Hx Hl IH]; [done|]. unfold total in *. simpl. lia.
Qed.

Lemma worker_ok_copied rd wk :
  worker_ok rd wk -> (copied wk <= length (pulled wk))%nat.
Proof.
  intros [_ Hw]. unfold copied.
  pose proof (markers_outcomes (emitted wk)) as Hmo.
  destruct (pc wk).
  - destruct Hw as (? & ?). lia.
  - destruct Hw as (_ & ? & ?). lia.
  - destruct Hw as (_ & ? & ?). lia.
  - destruct Hw as (_ & ? & ?). lia.
  - destruct Hw as (_ & out & Hout & Hm & Hl). rewrite Hout in *.
    rewrite markers_app, outcomes_app, length_app in Hmo.
    rewrite outcomes_app, outcomes_one, sentinel_is_marker.
    rewrite markers_one, sentinel_is_marker in Hmo. simpl in Hmo. lia.
Qed.

(** ** The container name and the requests *)

Lemma replace_dot_no_dot s : no_dot (strings.ReplaceAll s "." "-").
Proof.
  intros i. rewrite replace_dot_get.
  destruct (String.get i s) as [c|]; [|done]. simpl.
  destruct (Ascii.eqb c ".") eqn:Hc; [done|].
  intros [= ->]. by rewrite Ascii.eqb_refl in Hc.
Qed.

Lemma requests_shape tier ans wi e :
  requests tier ans wi e = []
  \/ (exists key, requests tier ans wi e = [S3GetObject (Bucket wi) key])
  \/ (exists key,
        requests tier ans wi e
        = [S3GetObject (Bucket wi) key;
           AzUploadStream (strings.ReplaceAll (Bucket wi) "." "-") key
                          (AzureTier_Get tier);
           BodyClose]).
Proof.
  destruct (url.QueryUnescape (Key wi)) as [key|bad] eqn:Hk.
  - rewrite (requests_decoded _ _ _ _ key Hk).
    destruct (GetObject_err ans); eauto.
  - left. unfold requests, CopyFile. rewrite Hk. simpl. by rewrite drop_all.
Qed.

(** ** The requests made in a run *)

Lemma total_insert_ge f (l : list Worker) i x y :
  l !! i = Some x -> (f x <= f y)%nat ->
  (total f l <= total f (<[i := y]> l))%nat.
Proof. intros Hi Hf. pose proof (total_insert f l i x y Hi). lia. Qed.

Lemma InvCalls_frame tier s s' :
  azureTier s' = azureTier s -> calls (env s') = calls (env s) ->
  (total copied (workers s) <= total copied (workers s'))%nat ->
  InvCalls tier s -> InvCalls tier s'.
Proof.
  intros Ht Hc Hw []. constructor; rewrite ?Ht, ?Hc; try done. lia.
Qed.

Lemma sending_copied rd wk v next :
  worker_ok rd wk -> sending wk = Some (v, next) ->
  copied (emit v next wk) = copied wk.
Proof.
  intros [_ Hok]. unfold sending, copied. simpl.
  destruct (pc wk) as [| |err| |]; try done; intros [= <- <-].
  - destruct Hok as (Hs & _).
    rewrite outcomes_app, outcomes_one, Hs. lia.
  - rewrite outcomes_app, outcomes_one, sentinel_is_marker. lia.
Qed.

Lemma InvCalls_copy tier s w wk wi ans :
  workers s !! w = Some wk -> pc wk = AtCtx wi ->
  InvCalls tier s ->
  InvCalls tier
    (set_env (CopyFile (azureTier s) ans wi (env s)).2
       (set_workers
          (<[w := set_pc (AtSend (CopyFile (azureTier s) ans wi (env s)).1) wk]>
             (workers s)) s)).
Proof.
  intros Hw Hpc [Ht Hc Hcl Hup Hget].
  pose proof (total_insert copied _ _ _
                (set_pc (AtSend (CopyFile (azureTier s) ans wi (env s)).1) wk)
                Hw) as Hins.
  assert (copied (set_pc (AtSend (CopyFile (azureTier s) ans wi (env s)).1) wk)
          = S (copied wk)) as Hnew.
  { unfold copied. simpl. rewrite Hpc. lia. }
  assert (Forall (call_ok tier) (requests (azureTier s) ans wi (env s))
          /\ count_if is_close (requests (azureTier s) ans wi (env s))
             = count_if is_upload (requests (azureTier s) ans wi (env s))
          /\ (count_if is_upload (requests (azureTier s) ans wi (env s))
              <= count_if is_get (requests (azureTier s) ans wi (env s)))%nat
          /\ (count_if is_get (requests (azureTier s) ans wi (env s)) <= 1)%nat)
    as (Hr1 & Hr2 & Hr3 & Hr4).
  { destruct (requests_shape (azureTier s) ans wi (env s))
      as [->|[[key ->]|[key ->]]]; unfold count_if; simpl;
      repeat split; try lia; repeat constructor.
    - by rewrite Ht.
    - apply replace_dot_no_dot. }
  constructor; simpl; try done; rewrite CopyFile_calls, ?count_if_app.
  - by apply Forall_app.
  - lia.
  - lia.
  - lia.
Qed.

Lemma trans_InvCalls tier inp s q :
  Inv inp s -> trans s q -> InvCalls tier s -> InvCalls tier (state_of q).
Proof.
  intros HI Ht HC.
  destruct Ht; simpl;
    try (by apply (InvCalls_frame tier s); simpl; try done);
    try (by apply InvCalls_copy).
  - apply (InvCalls_frame tier s); simpl; try done.
    eapply total_insert_ge; [done|]. unfold copied. simpl. by rewrite H1.
  - apply (InvCalls_frame tier s); simpl; try done.
    eapply total_insert_ge; [done|]. unfold copied. simpl. by rewrite H0.
  - apply (InvCalls_frame tier s); simpl; try done.
    eapply total_insert_ge; [done|]. unfold copied. simpl. by rewrite H0.
  - apply (InvCalls_frame tier s); simpl; try done.
    eapply total_insert_ge; [done|].
    pose proof (Forall_lookup_1 _ _ _ _ (inv_workers _ _ HI) H) as Hok.
    by rewrite (sending_copied _ _ _ _ Hok H0).
  - apply (InvCalls_frame tier s); simpl; try done.
    rewrite total_app. lia.
Qed.

Lemma reachable_InvCalls possible fl inp p :
  reachable possible fl inp p ->
  InvCalls (flag_Parse possible (azureTierArgs fl) {| val := None |}).1
           (state_of p).
Proof.
  revert p.
  apply (reachable_trans_ind possible fl inp
           (fun q => InvCalls
                       (flag_Parse possible (azureTierArgs fl)
                                   {| val := None |}).1 (state_of q))).
  - unfold start.
    destruct (flag_Parse possible (azureTierArgs fl) _) as [tier err]. simpl.
    repeat case_match; simpl; by constructor.
  - intros s q Hr HC Ht. simpl in HC.
    pose proof (reachable_inv _ _ _ _ Hr) as [HI _].
    by eapply trans_InvCalls.
Qed.

(** ** The results buffer *)

Lemma trans_InvBuf s q : trans s q -> InvBuf s -> InvBuf (state_of q).
Proof.
  intros Ht [Hl Hm].
  destruct Ht; constructor; simpl; try done;
    try (destruct (main s); [destruct Hm as (Hw & _); rewrite Hw in *; done
                            |done|done]).
  all: try match goal with
           | Hmain : main _ = _ |- _ => rewrite Hmain in Hm
           end;
    try match goal with
        | Hres : results _ = _ |- _ => rewrite Hres in Hl
        end;
    try done; unfold len in *; rewrite ?length_app; simpl in *; try lia.
Qed.

Lemma start_main_state possible fl inp :
  let s := state_of (start possible fl inp) in
  flags s = fl /\ main s = MakeResults /\ workers s = [] /\ results s = []
  /\ results_cap s = 0 /\ received s = [] /\ calls (env s) = []
  /\ reader s = Reading 1 (reads inp) /\ results_closed s = false.
Proof. unfold start. repeat case_match; simpl; done. Qed.

Lemma reachable_InvBuf possible fl inp p :
  reachable possible fl inp p -> InvBuf (state_of p).
Proof.
  revert p. apply (reachable_trans_ind possible fl inp
                     (fun q => InvBuf (state_of q))).
  - destruct (start_main_state possible fl inp)
      as (_ & Hm & Hw & Hr & Hc & _).
    constructor; rewrite ?Hm, ?Hr, ?Hc; done.
  - intros s q _ HB Ht. by eapply trans_InvBuf.
Qed.

(** ** The dispatch of the items *)

Lemma concat_pulled_same (ws : list Worker) w wk new :
  ws !! w = Some wk -> pulled new = pulled wk ->
  concat (map pulled (<[w := new]> ws)) = concat (map pulled ws).
Proof.
  revert w. induction ws as [|x ws IH]; intros [|w] Hw Hp; simplify_eq/=.
  - by rewrite Hp.
  - by rewrite (IH w).
Qed.

Lemma concat_pulled_pull (ws : list Worker) w wk wi :
  ws !! w = Some wk ->
  concat (map pulled (<[w := pull wi wk]> ws)) ≡ₚ wi :: concat (map pulled ws).
Proof.
  revert w. induction ws as [|x ws IH]; intros [|w] Hw; simplify_eq/=.
  - rewrite <- app_assoc. simpl. symmetry. apply Permutation_middle.
  - rewrite (IH w Hw). symmetry. apply Permutation_middle.
Qed.

Lemma InvDispatch_frame inp s s' :
  reader s' = reader s -> dispatched s' = dispatched s ->
  InvDispatch inp s -> InvDispatch inp s'.
Proof. intros Hr Hd []. constructor; rewrite ?Hr, ?Hd; done. Qed.

Lemma trans_InvDispatch inp s q :
  trans s q -> InvDispatch inp s -> InvDispatch inp (state_of q).
Proof.
  intros Ht HD.
  destruct Ht; simpl;
    try (by apply (InvDispatch_frame inp s); simpl; try done;
         unfold dispatched; simpl; eauto using concat_pulled_same).
  - (* end of the stream *)
    destruct HD as [Hp Hl]. rewrite H in *. by constructor.
  - (* a record is read *)
    destruct HD as [Hp Hl]. rewrite H in *. constructor; simpl; [done|].
    rewrite Hl. f_equal. unfold len. simpl length. lia.
  - (* an item is handed to a worker *)
    destruct HD as [Hp Hl]. rewrite H in *. constructor; simpl.
    + unfold dispatched in *. simpl in *.
      rewrite (concat_pulled_pull _ _ _ _ H0). simpl.
      rewrite <- Hp. apply Permutation_middle.
    + by rewrite Hl, wrap64_succ.
  - (* a worker is started *)
    apply (InvDispatch_frame inp s); simpl; try done.
    unfold dispatched. simpl. rewrite map_app, concat_app. simpl.
    by rewrite app_nil_r.
Qed.

Lemma reachable_InvDispatch possible fl inp p :
  reachable possible fl inp p -> InvDispatch inp (state_of p).
Proof.
  revert p. apply (reachable_trans_ind possible fl inp
                     (fun q => InvDispatch inp (state_of q))).
  - destruct (start_main_state possible fl inp)
      as (_ & _ & Hw & _ & _ & _ & _ & Hr & _).
    constructor; unfold dispatched; rewrite ?Hw, ?Hr; simpl; [done|].
    rewrite wrap64_id; [lia|]. unfold min_int, max_int.
    pose proof (Nat2Z.is_nonneg (length (reads inp))). unfold len. lia.
  - intros s q _ HD Ht. by eapply trans_InvDispatch.
Qed.

(** ** The log and the exit *)

Lemma CopyFile_log tier ans wi e :
  count_if is_copied (log (CopyFile tier ans wi e).2)
  = (count_if is_copied (log e)
     + if is_nil (CopyFile tier ans wi e).1 then 1 else 0)%nat
  /\ count_if is_error (log (CopyFile tier ans wi e).2)
     = count_if is_error (log e)
  /\ count_if is_panic (log (CopyFile tier ans wi e).2)
     = count_if is_panic (log e).
Proof.
  unfold CopyFile. repeat case_match; simplify_eq/=; rewrite ?count_if_app;
    unfold count_if; simpl; lia.
Qed.

Lemma sending_copied_ok wk v next :
  sending wk = Some (v, next) ->
  copied_ok (emit v next wk) = copied_ok wk.
Proof.
  unfold sending, copied_ok. simpl.
  destruct (pc wk) as [| |err| |]; try done; intros [= <- <-];
    rewrite successes_app, successes_one.
  - destruct err; simpl; lia.
  - simpl. lia.
Qed.

Lemma InvLog_frame s s' :
  flags s' = flags s ->
  count_if is_error (log (env s')) = count_if is_error (log (env s)) ->
  count_if is_copied (log (env s')) = count_if is_copied (log (env s)) ->
  count_if is_panic (log (env s')) = count_if is_panic (log (env s)) ->
  received s' = received s -> results s' = results s ->
  total copied_ok (workers s') = total copied_ok (workers s) ->
  total (fun w => successes (emitted w)) (workers s')
  = total (fun w => successes (emitted w)) (workers s) ->
  InvLog s -> InvLog s'.
Proof.
  intros Hf He Hc Hp Hr Hres Hw1 Hw2 [].
  constructor; rewrite ?Hf, ?He, ?Hc, ?Hp, ?Hr, ?Hres, ?Hw1, ?Hw2; done.
Qed.

Lemma trans_InvLog s q :
  results_closed s = false -> trans s q -> InvLog s -> InvLog (state_of q).
Proof.
  intros Hcl Ht HL.
  destruct Ht; simpl;
    try (by apply (InvLog_frame s); simpl; rewrite ?count_if_app; try done;
         unfold count_if; simpl; try lia;
         eauto using total_insert_same, sending_copied_ok).
  - (* an item is handed to a worker *)
    apply (InvLog_frame s); simpl; try done.
    + apply (total_insert_same _ _ _ wk); [done|].
      unfold copied_ok. simpl. by rewrite H1.
    + by apply (total_insert_same _ _ _ wk).
  - (* set_pc AtSentinel from AtRange *)
    apply (InvLog_frame s); simpl; try done.
    + apply (total_insert_same _ _ _ wk); [done|].
      unfold copied_ok. simpl. by rewrite H0.
    + by apply (total_insert_same _ _ _ wk).
  - (* set_pc AtSentinel from AtCtx *)
    apply (InvLog_frame s); simpl; try done.
    + apply (total_insert_same _ _ _ wk); [done|].
      unfold copied_ok. simpl. by rewrite H0.
    + by apply (total_insert_same _ _ _ wk).
  - (* CopyFile *)
    destruct HL as [He Hc Hs Hp].
    destruct (CopyFile_log (azureTier s) ans wi (env s)) as (Lc & Le & Lp).
    pose proof (total_insert copied_ok _ _ _
                  (set_pc (AtSend (CopyFile (azureTier s) ans wi (env s)).1) wk)
                  H) as Hins.
    assert (copied_ok
              (set_pc (AtSend (CopyFile (azureTier s) ans wi (env s)).1) wk)
            = (copied_ok wk
               + if is_nil (CopyFile (azureTier s) ans wi (env s)).1
                 then 1 else 0)%nat) as Hnew.
    { unfold copied_ok. simpl. rewrite H0.
      destruct (CopyFile (azureTier s) ans wi (env s)).1; simpl; lia. }
    constructor; simpl.
    + by rewrite Le.
    + rewrite Lc. lia.
    + by rewrite (total_insert_same _ _ _ wk).
    + by rewrite Lp.
  - congruence.
  - (* a value is sent *)
    destruct HL as [He Hc Hs Hp].
    pose proof (total_insert (fun w => successes (emitted w)) _ _ _
                  (emit v next wk) H) as Hins.
    simpl in Hins. rewrite successes_app in Hins.
    constructor; simpl; try done.
    + rewrite (total_insert_same _ _ _ wk); [done|done|].
      by apply sending_copied_ok.
    + rewrite app_assoc, successes_app, Hs.
      assert (forall a b c d : nat,
                 (a + c = b + (c + d))%nat -> (b + d = a)%nat) as Har
          by (intros; lia).
      by apply Har in Hins.
  - (* panic at make *)
    destruct HL as [He Hc Hs Hp]. constructor; simpl; try done.
    + rewrite count_if_app. unfold count_if at 2. simpl.
      by rewrite Nat.add_0_r.
    + rewrite count_if_app. unfold count_if at 2. simpl.
      by rewrite Nat.add_0_r.
  - (* a worker is started *)
    apply (InvLog_frame s); simpl; try done; rewrite total_app;
      unfold total; simpl; lia.
  - (* main returns *)
    destruct HL as [He Hc Hs Hp]. rewrite H0 in Hs.
    constructor; simpl; try done.
    + rewrite count_if_app, He. unfold count_if, is_failure. simpl.
      rewrite H1. rewrite andb_false_r. simpl. lia.
    + by rewrite <- app_assoc.
  - (* a marker is received *)
    destruct HL as [He Hc Hs Hp]. rewrite H0 in Hs.
    constructor; simpl; try done.
    + rewrite count_if_app, He. unfold count_if, is_failure. simpl.
      rewrite H1. rewrite andb_false_r. simpl. lia.
    + by rewrite <- app_assoc.
  - (* a success is received *)
    destruct HL as [He Hc Hs Hp]. rewrite H0 in Hs.
    constructor; simpl; try done.
    + rewrite count_if_app, He. unfold count_if. simpl. lia.
    + by rewrite <- app_assoc.
  - (* a failure is received *)
    destruct HL as [He Hc Hs Hp]. rewrite H0 in Hs.
    constructor; simpl; try done.
    + rewrite !count_if_app, !count_if_one, He. unfold is_failure.
      rewrite H1. done.
    + rewrite count_if_app. unfold count_if at 2. simpl.
      by rewrite Nat.add_0_r.
    + by rewrite <- app_assoc.
    + rewrite count_if_app. unfold count_if at 2. simpl.
      by rewrite Nat.add_0_r.
Qed.

Lemma reachable_InvLog possible fl inp p :
  reachable possible fl inp p -> InvLog (state_of p).
Proof.
  revert p. apply (reachable_trans_ind possible fl inp
                     (fun q => InvLog (state_of q))).
  - unfold start. repeat case_match; constructor; simpl; try done;
      unfold count_if; simpl; lia.
  - intros s q Hr HL Ht.
    pose proof (reachable_inv _ _ _ _ Hr) as [_ Hcl].
    by eapply trans_InvLog.
Qed.

Lemma trans_exit_ok s q : results_closed s = false -> trans s q -> exit_ok q.
Proof.
  intros Hcl Ht. destruct Ht; simpl; try done; try congruence.
  - right. left. split; [done|]. eexists. by rewrite last_snoc.
  - right. left. split; [done|]. eexists. by rewrite last_snoc.
  - right. right. split; [done|]. eexists. by rewrite last_snoc.
  - right. left. split; [done|]. eexists. by rewrite last_snoc.
  - left. split; [done|]. split; [done|]. by eexists _, _.
Qed.

Lemma reachable_exit_ok possible fl inp p :
  reachable possible fl inp p -> exit_ok p.
Proof.
  revert p. apply (reachable_trans_ind possible fl inp exit_ok).
  - unfold start. repeat case_match; simpl; try done.
    + right. right. split; [done|]. by eexists.
    + right. left. split; [done|]. by eexists.
  - intros s q Hr _ Ht.
    pose proof (reachable_inv _ _ _ _ Hr) as [_ Hcl].
    by eapply trans_exit_ok.
Qed.

Lemma trans_spawn_ok s q :
  concurrency (flags s) <= max_int ->
  trans s q -> spawn_ok s -> spawn_ok (state_of q).
Proof.
  intros HN Ht. unfold spawn_ok.
  destruct Ht; simpl; try done;
    try (destruct (main s);
         [intros Hw; by rewrite Hw
         |intros ->; unfold len; by rewrite length_insert
         |done]).
  rewrite H. intros ->. unfold len in *. rewrite length_app. simpl.
  unfold add64. rewrite wrap64_id; [lia|].
  unfold min_int, max_int in *. lia.
Qed.

Lemma reachable_spawn_ok possible fl inp p :
  concurrency fl <= max_int ->
  reachable possible fl inp p -> spawn_ok (state_of p).
Proof.
  intros HN. revert p.
  apply (reachable_trans_ind possible fl inp
           (fun q => spawn_ok (state_of q))).
  - destruct (start_main_state possible fl inp) as (_ & Hm & Hw & _).
    unfold spawn_ok. by rewrite Hm.
  - intros s q Hr HS Ht. eapply trans_spawn_ok; try done.
    pose proof (reachable_flags _ _ _ _ Hr) as Hf. simpl in Hf.
    by rewrite Hf.
Qed.

(** ** Every move uses up some of the work left *)

Lemma sending_weight wk v next :
  sending wk = Some (v, next) ->
  (worker_weight (emit v next wk) + 2 = worker_weight wk)%nat.
Proof.
  unfold sending, worker_weight. simpl.
  destruct (pc wk); try done; by intros [= <- <-].
Qed.

Lemma trans_weight s q :
  concurrency (flags s) <= max_int -> results_closed s = false ->
  spawn_ok s -> trans s q -> (proc_weight q < weight s)%nat.
Proof.
  intros HN Hcl Hsp Ht. unfold spawn_ok in Hsp.
  destruct Ht; unfold proc_weight, log_Fatal, panic, weight; simpl;
    try congruence;
    repeat match goal with
           | Hx : reader _ = _ |- _ => rewrite Hx
           | Hx : main _ = _ |- _ => rewrite Hx in *
           | Hx : results _ = _ |- _ => rewrite Hx
           end; simpl; rewrite ?length_app; simpl; try lia.
  - (* handoff *)
    pose proof (total_insert worker_weight _ _ _ (pull wi wk) H0) as Hins.
    assert (worker_weight wk = 4%nat) as Hwk
        by (unfold worker_weight; by rewrite H1).
    change (worker_weight (pull wi wk)) with 8%nat in Hins. lia.
  - (* the range loop ends *)
    pose proof (total_insert worker_weight _ _ _ (set_pc AtSentinel wk) H)
      as Hins.
    assert (worker_weight wk = 4%nat) as Hwk
        by (unfold worker_weight; by rewrite H0).
    change (worker_weight (set_pc AtSentinel wk)) with 2%nat in Hins. lia.
  - (* cancelled *)
    pose proof (total_insert worker_weight _ _ _ (set_pc AtSentinel wk) H)
      as Hins.
    assert (worker_weight wk = 8%nat) as Hwk
        by (unfold worker_weight; by rewrite H0).
    change (worker_weight (set_pc AtSentinel wk)) with 2%nat in Hins. lia.
  - (* CopyFile *)
    pose proof (total_insert worker_weight _ _ _
                  (set_pc (AtSend (CopyFile (azureTier s) ans wi (env s)).1) wk)
                  H) as Hins.
    assert (worker_weight wk = 8%nat) as Hwk
        by (unfold worker_weight; by rewrite H0).
    change (worker_weight (set_pc _ wk)) with 6%nat in Hins. lia.
  - (* a send *)
    pose proof (total_insert worker_weight _ _ _ (emit v next wk) H) as Hins.
    pose proof (sending_weight _ _ _ H0). lia.
  - (* make *)
    rewrite Hsp. unfold len. simpl. rewrite Z.sub_0_r. unfold total. simpl. lia.
  - (* a worker is started *)
    rewrite total_app. unfold total at 2. simpl.
    change (worker_weight (fresh_worker {| ctx := Background |})) with 4%nat.
    subst i. unfold add64. rewrite wrap64_id.
    + replace (Z.to_nat (concurrency (flags s) - len (workers s)))
        with (S (Z.to_nat (concurrency (flags s) - (len (workers s) + 1))))
        by lia. lia.
    + unfold min_int, max_int, len in *. lia.
Qed.

Lemma reachable_step possible fl inp m s q :
  reachable possible fl inp (Running s) -> exec m s = Some q ->
  reachable possible fl inp q.
Proof. intros Hr He. eapply rtc_r; [exact Hr|]. by econstructor. Qed.

Lemma run_weight possible fl inp ms :
  concurrency fl <= max_int ->
  forall q p, reachable possible fl inp q -> run ms q = Some p ->
              (length ms + proc_weight p <= proc_weight q)%nat.
Proof.
  intros HN. induction ms as [|m ms IH]; intros q p Hr; simpl.
  - intros [= ->]. lia.
  - destruct q as [s|c s]; [|done].
    destruct (exec m s) as [q'|] eqn:He; [|done]. intros Hrun.
    pose proof (reachable_step _ _ _ _ _ _ Hr He) as Hr'.
    specialize (IH _ _ Hr' Hrun).
    pose proof (reachable_inv _ _ _ _ Hr) as [_ Hcl].
    pose proof (reachable_spawn_ok _ _ _ _ HN Hr) as Hsp.
    pose proof (reachable_flags _ _ _ _ Hr) as Hf. simpl in *.
    assert (proc_weight q' < weight s)%nat; [|lia].
    apply trans_weight; try done; [by rewrite Hf|by eapply exec_trans].
Qed.

Lemma wrap_double_pos N :
  1 <= N <= max_int -> 0 <= mul64 2 N -> 0 < mul64 2 N.
Proof.
  unfold mul64, wrap64, max_int. intros HN Hp.
  destruct (Z_lt_le_dec N (2 ^ 62)) as [Hlt|Hge].
  - rewrite Z.mod_small in * by lia. lia.
  - replace (2 * N + 2 ^ 63) with ((2 * N - 2 ^ 63) + 1 * 2 ^ 64) in * by lia.
    rewrite Z_mod_plus_full in *. rewrite Z.mod_small in * by lia. lia.
Qed.

(** * Further properties, stated *)

(** X1. Every run is finite, whatever the schedule and whatever the
    stores answer: a run over M records with [-j N] takes at most
    6 M + 5 N + 3 moves of the reader, the workers and [main]
    together. *)
Theorem run_length_bounded possible fl inp ms p :
  concurrency fl <= max_int ->
  run ms (start possible fl inp) = Some p ->
  (length ms
   <= 6 * length (reads inp) + 5 * Z.to_nat (concurrency fl) + 3)%nat.
Proof.
  intros HN Hrun.
  pose proof (run_weight possible fl inp ms HN _ _ (rtc_refl _ _) Hrun) as Hw.
  assert (proc_weight (start possible fl inp)
          <= 6 * length (reads inp) + 5 * Z.to_nat (concurrency fl) + 3)%nat;
    [|lia].
  unfold start. repeat case_match; simpl; try lia;
    unfold weight; simpl; unfold total; simpl; lia.
Qed.

Lemma run_length_bounded_witness :
  (length two_workers_one_item
   <= 6 * length (reads one_line) + 5 * Z.to_nat 2 + 3)%nat.
Proof.
  refine (run_length_bounded sample_tiers (flags_j 2 []) one_line
            two_workers_one_item
            (final_of two_workers_one_item (flags_j 2 []) one_line) _ _).
  - unfold max_int. simpl. lia.
  - vm_compute. reflexivity.
Defined.

(** X2. With [-j N], N at least 1, a running process is never stuck:
    in every reachable state some goroutine can take a step. With X1,
    every run goes on until the process exits, also when every transfer
    fails. *)
Theorem no_deadlock possible fl inp p :
  1 <= concurrency fl <= max_int ->
  reachable possible fl inp p -> exit_code p = None ->
  exists m q, exec m (state_of p) = Some q.
Proof.
  intros HN Hr Hex. destruct p as [s|c s]; [|done]. simpl.
  pose proof (reachable_inv _ _ _ _ Hr) as [HI Hcl]. simpl in HI, Hcl.
  pose proof (reachable_agg _ _ _ _ HN Hr) as Ha.
  pose proof (reachable_InvBuf _ _ _ _ Hr) as [_ HB]. simpl in HB.
  pose proof (reachable_flags _ _ _ _ Hr) as Hf. simpl in Hf.
  unfold agg_ok in Ha. simpl in Ha.
  destruct (main s) as [|i|ec ok seen] eqn:Hm.
  - exists (MoveMain SetupOk). simpl. unfold main_step. rewrite Hm.
    repeat case_match; eauto.
  - exists (MoveMain SetupOk). simpl. unfold main_step. rewrite Hm.
    repeat case_match; eauto.
  - destruct (results s) as [|res rest] eqn:Hres.
    2:{ exists (MoveMain SetupOk). simpl. unfold main_step.
        rewrite Hm, Hres. eauto. }
    destruct Ha as (Hlen & Hec & _ & Hpos & _).
    destruct HB as (Hcap & Hcap0 & _). rewrite Hf in Hcap.
    assert ((len (results s) <? results_cap s) = true) as Hroom.
    { apply Z.ltb_lt. rewrite Hres, Hcap. unfold len. simpl.
      apply wrap_double_pos; [done|]. by rewrite <- Hcap. }
    destruct (decide (Forall (fun w => alive w = 0%nat) (workers s)))
      as [Hall|Hsome].
    + exfalso. pose proof (inv_markers _ _ HI) as Hmk.
      rewrite Hres, app_nil_r in Hmk.
      rewrite (total_const _ _ 1%nat) in Hmk.
      * unfold len in *. lia.
      * apply Forall_forall. intros w Hin.
        pose proof (proj1 (Forall_forall _ _) Hall w Hin) as Hw0.
        pose proof (proj1 (Forall_forall _ _) (inv_workers _ _ HI) w Hin)
          as Hok.
        pose proof (worker_ok_balance _ _ Hok). simpl in *. lia.
    + apply not_Forall_Exists in Hsome; [|apply _].
      apply Exists_exists in Hsome as (wk & Hin & Hal).
      apply list_elem_of_lookup in Hin as [w Hw]. simpl in Hal.
      destruct (pc wk) as [|wi|err| |] eqn:Hpc.
      * destruct (reader s) as [j rd|wi j rd|] eqn:Hrd.
        -- exists MoveReader. simpl. unfold readerLoop_step. rewrite Hrd.
           repeat case_match; eauto.
        -- exists (MoveHandoff w). simpl. unfold handoff.
           rewrite Hrd, Hw, Hpc. eauto.
        -- exists (MoveWorker w stores_ok). simpl. unfold DoCopy_step.
           rewrite Hw, Hpc, Hrd. eauto.
      * exists (MoveWorker w stores_ok). simpl. unfold DoCopy_step.
        rewrite Hw, Hpc. repeat case_match; eauto.
      * exists (MoveWorker w stores_ok). simpl. unfold DoCopy_step.
        rewrite Hw, Hpc. unfold send_result. rewrite Hcl, Hroom. eauto.
      * exists (MoveWorker w stores_ok). simpl. unfold DoCopy_step.
        rewrite Hw, Hpc. unfold send_result. rewrite Hcl, Hroom. eauto.
      * unfold alive in Hal. by rewrite Hpc in Hal.
Qed.

Lemma no_deadlock_witness :
  exists m q,
    exec m (state_of (final_of worker_holds_item (flags_j 1 []) bad_key_line))
    = Some q.
Proof.
  refine (no_deadlock sample_tiers (flags_j 1 []) bad_key_line
            (final_of worker_holds_item (flags_j 1 []) bad_key_line) _ _ _).
  - unfold max_int. simpl. lia.
  - apply final_of_reachable.
  - reflexivity.
Defined.

Lemma total_pos_exists f (l : list Worker) :
  (0 < total f l)%nat -> exists x, x ∈ l /\ (0 < f x)%nat.
Proof.
  induction l as [|x l IH]; unfold total in *; simpl; [lia|]. intros H.
  destruct (f x) eqn:Hx.
  - destruct IH as (y & Hy & Hfy); [lia|]. exists y. split; [by right|done].
  - exists x. split; [by left|lia].
Qed.

Lemma pulled_total_le inp s :
  Inv inp s -> (pulled_total s <= length (reads inp))%nat.
Proof.
  intros HI. pose proof (inv_reader _ _ HI) as Hr. unfold reader_ok in Hr.
  destruct (reader s).
  - destruct Hr as (pre & -> & _ & ->). rewrite length_app. lia.
  - destruct Hr as (pre & -> & _ & ->). rewrite length_app. lia.
  - destruct Hr as (_ & ->). lia.
Qed.

(** X3. When [main] has returned (exit status 0, [-j N] with N at
    least 1), nothing is left behind: the N workers have all sent their
    marker and finished, the results channel is empty and closed, and
    the reader has closed the work queue. *)
Theorem clean_shutdown possible fl inp p :
  1 <= concurrency fl <= max_int ->
  reachable possible fl inp p -> exit_code p = Some 0 ->
  Forall (fun w => pc w = Finished) (workers (state_of p)) /\
  len (workers (state_of p)) = concurrency fl /\
  results (state_of p) = [] /\ results_closed (state_of p) = true /\
  reader (state_of p) = ReaderDone.
Proof.
  intros HN Hr Hex.
  destruct (run_end _ _ _ _ HN Hr Hex)
    as (ok & seen & _ & Hres & Hfin & Hlen & Hrd & _).
  pose proof (reachable_exit_ok _ _ _ _ Hr) as He.
  destruct p as [s|c s]; [done|]. simpl in *. simplify_eq.
  destruct He as [(_ & Hcl & _)|[[? _]|[? _]]]; done.
Qed.

Lemma clean_shutdown_witness :
  Forall (fun w => pc w = Finished)
         (workers (state_of (final_of two_workers_one_item (flags_j 2 [])
                               one_line)))
  /\ results (state_of (final_of two_workers_one_item (flags_j 2 [])
                          one_line)) = [].
Proof.
  pose proof (clean_shutdown sample_tiers (flags_j 2 []) one_line
                (final_of two_workers_one_item (flags_j 2 []) one_line)) as H.
  destruct H as (H1 & _ & H2 & _).
  - unfold max_int. simpl. lia.
  - apply final_of_reachable.
  - reflexivity.
  - split; [exact H1|exact H2].
Defined.

(** X4. Whatever [-j] is: the process exits with status 0 only if
    every record of the input was well formed (two fields, no read
    error) and the reader reached the end of the stream. An input with
    a malformed record never ends in success. *)
Theorem malformed_input_never_succeeds possible fl inp p :
  reachable possible fl inp p -> exit_code p = Some 0 ->
  Forall (fun r => well_formed r = true) (reads inp) /\
  reader (state_of p) = ReaderDone.
Proof.
  intros Hr Hex.
  pose proof (reachable_exit_ok _ _ _ _ Hr) as He.
  pose proof (reachable_inv _ _ _ _ Hr) as [HI _].
  destruct p as [s|c s]; [done|]. simpl in *. simplify_eq.
  destruct He as [(_ & _ & l & res & Hrec & Hs)|[[? _]|[? _]]]; try done.
  pose proof (inv_markers _ _ HI) as Hmk.
  rewrite Hrec, !markers_app, markers_one, Hs in Hmk.
  destruct (total_pos_exists (fun w => markers (emitted w)) (workers s))
    as (wk & Hin & Hpos); [lia|].
  pose proof (proj1 (Forall_forall _ _) (inv_workers _ _ HI) wk Hin) as Hok.
  pose proof (worker_ok_balance _ _ Hok) as Hbal.
  destruct (worker_ok_finished _ _ Hok) as [Hrd _]; [lia|].
  pose proof (inv_reader _ _ HI) as Hro. unfold reader_ok in Hro.
  rewrite Hrd in Hro. by destruct Hro.
Qed.

Lemma malformed_input_never_succeeds_witness :
  Forall (fun r => well_formed r = true) (reads one_line).
Proof.
  refine (proj1 (malformed_input_never_succeeds sample_tiers (flags_j 2 [])
                   one_line
                   (final_of two_workers_one_item (flags_j 2 []) one_line)
                   _ _)).
  - apply final_of_reachable.
  - reflexivity.
Defined.

(** X5. No item is duplicated and none is skipped: at every moment the
    items the workers have received, the item the reader is handing
    over and the items of the records not read yet are, together, a
    rearrangement of the items of the input. Once the work queue is
    closed, what the workers received is a rearrangement of the whole
    input. *)
Theorem items_dispatched_once possible fl inp p :
  reachable possible fl inp p ->
  dispatched (state_of p) ++ in_flight (reader (state_of p))
    ++ items_of (unread (reader (state_of p)))
  ≡ₚ items_of (reads inp)
  /\ match reader (state_of p) with
     | ReaderDone => dispatched (state_of p) ≡ₚ items_of (reads inp)
     | Reading _ _ | Sending _ _ _ => True
     end.
Proof.
  intros Hr. pose proof (reachable_InvDispatch _ _ _ _ Hr) as [Hp _].
  split; [done|]. destruct (reader (state_of p)); try done.
  simpl in Hp. by rewrite app_nil_r in Hp.
Qed.

Lemma items_dispatched_once_witness :
  dispatched (state_of (final_of two_workers_one_item (flags_j 2 [])
                          one_line))
  ≡ₚ [{| Bucket := "my.bucket"; Key := "a%20b+c" |}].
Proof.
  exact (proj2 (items_dispatched_once sample_tiers (flags_j 2 []) one_line
                  (final_of two_workers_one_item (flags_j 2 []) one_line)
                  (final_of_reachable _ _ _))).
Defined.

(** X6. The results channel never holds more values than it was made
    for, and that is twice the number of workers: with [-j N],
    0 <= N < 2^62, at most 2 N values wait in it. *)
Theorem results_buffer_bounded possible fl inp p :
  0 <= concurrency fl < 2 ^ 62 ->
  reachable possible fl inp p ->
  len (results (state_of p)) <= results_cap (state_of p) /\
  results_cap (state_of p) <= 2 * concurrency fl.
Proof.
  intros HN Hr. pose proof (reachable_InvBuf _ _ _ _ Hr) as [Hl Hm].
  pose proof (reachable_flags _ _ _ _ Hr) as Hf.
  split; [done|]. rewrite Hf in Hm.
  assert (mul64 2 (concurrency fl) = 2 * concurrency fl) as Hmul.
  { unfold mul64. apply wrap64_id. unfold min_int, max_int. lia. }
  destruct (main (state_of p)).
  - destruct Hm as (_ & _ & ->). lia.
  - destruct Hm as (-> & _). lia.
  - destruct Hm as (-> & _). lia.
Qed.

Lemma results_buffer_bounded_witness :
  len (results (state_of (final_of worker_holds_item (flags_j 1 [])
                            bad_key_line))) <= 2 * 1.
Proof.
  pose proof (results_buffer_bounded sample_tiers (flags_j 1 []) bad_key_line
                (final_of worker_holds_item (flags_j 1 []) bad_key_line)) as H.
  destruct H as [H1 H2].
  - simpl. lia.
  - apply final_of_reachable.
  - exact (Z.le_trans _ _ _ H1 H2).
Defined.



Lemma Set_keeps_possible possible v s :
  match val s with None => True | Some t => t ∈ possible end ->
  match val (AzureTier_Set possible v s).1 with
  | None => True
  | Some t => t ∈ possible
  end.
Proof.
  intros Hs. unfold AzureTier_Set.
  destruct (find _ possible) as [t|] eqn:Hf; simpl.
  - apply find_some in Hf as [Hin _]. by apply list_elem_of_In.
  - destruct (val s) eqn:Hv; simpl; by rewrite ?Hv.
Qed.

Lemma flag_Parse_keeps_possible possible occ : forall s,
  match val s with None => True | Some t => t ∈ possible end ->
  match val (flag_Parse possible occ s).1 with
  | None => True
  | Some t => t ∈ possible
  end.
Proof.
  induction occ as [|v occ IH]; intros s Hs; simpl; [done|].
  pose proof (Set_keeps_possible possible v s Hs) as Hset.
  destruct (AzureTier_Set possible v s) as [s' [e|]]; simpl in *; [done|].
  by apply IH.
Qed.

(** X8. Every upload of a run is requested under one and the same
    tier, the one left by flag parsing, which is nil or one of the
    possible tier values; and the container it names has no '.'. *)
Theorem uploads_carry_the_tier possible fl inp p :
  reachable possible fl inp p ->
  match AzureTier_Get
          (flag_Parse possible (azureTierArgs fl) {| val := None |}).1 with
  | None => True
  | Some t => t ∈ possible
  end /\
  Forall (fun c =>
            match c with
            | AzUploadStream container _ t =>
                t = AzureTier_Get
                      (flag_Parse possible (azureTierArgs fl)
                                  {| val := None |}).1
                /\ no_dot container
            | S3GetObject _ _ | BodyClose => True
            end) (calls (env (state_of p))).
Proof.
  intros Hr. split.
  - by apply flag_Parse_keeps_possible.
  - apply (reachable_InvCalls _ _ _ _ Hr).
Qed.

Lemma uploads_carry_the_tier_witness :
  Forall (fun c =>
            match c with
            | AzUploadStream container _ t => t = Some "Cool"%string
                                              /\ no_dot container
            | S3GetObject _ _ | BodyClose => True
            end)
         (calls (env (state_of (final_of two_workers_one_item
                                  (flags_j 2 ["Cool"%string]) one_line)))).
Proof.
  exact (proj2 (uploads_carry_the_tier sample_tiers
                  (flags_j 2 ["Cool"%string]) one_line
                  (final_of two_workers_one_item (flags_j 2 ["Cool"%string])
                     one_line)
                  (final_of_reachable _ _ _))).
Defined.

Lemma outcome_kinds l :
  (count_if is_failure l + successes l + markers l = length l)%nat.
Proof.
  induction l as [|x l IH]; [done|].
  change (x :: l) with ([x] ++ l).
  rewrite count_if_app, successes_app, markers_app, length_app.
  rewrite count_if_one, successes_one, markers_one.
  replace (is_failure x)
    with (negb (is_nil x) && negb (is_errCloseSentinel x)) by reflexivity.
  destruct x as [e|]; [destruct (is_errCloseSentinel (Some e))|];
    cbn [is_nil negb andb length];
    change (is_errCloseSentinel None) with false; cbv iota; lia.
Qed.

(** X9. The log of a run that ended with status 0 ([-j N], N at least
    1) has one "Copied" line for each transfer that succeeded and one
    "Error" line for each transfer that failed, M lines in all for the
    M records of the input; [seenOk] is the number of "Copied" lines
    (up to the width of an int). *)
Theorem log_matches_outcomes possible fl inp p :
  1 <= concurrency fl <= max_int ->
  reachable possible fl inp p -> exit_code p = Some 0 ->
  count_if is_copied (log (env (state_of p)))
  = successes (received (state_of p)) /\
  (count_if is_copied (log (env (state_of p)))
   + count_if is_error (log (env (state_of p))) = length (reads inp))%nat /\
  exists seen,
    main (state_of p)
    = Aggregating 0
        (wrap64 (Z.of_nat (count_if is_copied (log (env (state_of p))))))
        seen.
Proof.
  intros HN Hr Hex.
  destruct (run_end _ _ _ _ HN Hr Hex)
    as (ok & seen & Hm & Hres & Hfin & Hlen & _ & _ & Hmk & Hrec & -> & _).
  pose proof (reachable_InvLog _ _ _ _ Hr) as [He Hc Hs _].
  rewrite Hres, app_nil_r in Hs.
  assert (count_if is_copied (log (env (state_of p)))
          = successes (received (state_of p))) as Hcop.
  { rewrite Hc, Hs.
    clear -Hfin. induction Hfin as [|w ws Hw _ IH]; [done|].
    unfold total in *. simpl. rewrite IH. f_equal.
    unfold copied_ok. rewrite Hw. lia. }
  pose proof (outcome_kinds (received (state_of p))) as Hk.
  unfold len in Hrec. split; [done|]. split; [lia|].
  exists seen. by rewrite Hcop.
Qed.

Lemma log_matches_outcomes_witness :
  count_if is_copied
    (log (env (state_of (final_of two_workers_one_item (flags_j 2 [])
                           one_line)))) = 1%nat.
Proof.
  refine (proj1 (log_matches_outcomes sample_tiers (flags_j 2 []) one_line
                   (final_of two_workers_one_item (flags_j 2 []) one_line)
                   _ _ _)).
  - unfold max_int. simpl. lia.
  - apply final_of_reachable.
  - reflexivity.
Defined.





(** X12. The number in the fatal message of the reader is the number
    of the offending record: when the reader stands at a malformed
    record after k well-formed ones, [log.Fatal] reports k + 1 (up to
    the width of an int), with the field count or the read error. *)
Theorem fatal_names_the_record possible fl inp p i r rest :
  reachable possible fl inp p -> exit_code p = None ->
  reader (state_of p) = Reading i (r :: rest) -> well_formed r = false ->
  exists pre,
    reads inp = pre ++ r :: rest /\
    Forall (fun r => well_formed r = true) pre /\
    i = wrap64 (len pre + 1) /\
    readerLoop_step (state_of p)
    = Some (log_Fatal
              match r with
              | ReadRecord line => LogFatalFields i (len line)
              | ReadError err => LogFatalRead i err
              end (state_of p)).
Proof.
  intros Hr Hex Hrd Hwf. destruct p as [s|c s]; [|done]. simpl in *.
  pose proof (reachable_inv _ _ _ _ Hr) as [HI _]. simpl in HI.
  pose proof (reachable_InvDispatch _ _ _ _ Hr) as [_ Hl]. simpl in Hl.
  pose proof (inv_reader _ _ HI) as Hro. unfold reader_ok in Hro.
  rewrite Hrd in *. destruct Hro as (pre & Hpre & Hpwf & _).
  exists pre. split; [done|]. split; [done|]. split.
  - rewrite Hl, Hpre. f_equal. unfold len. rewrite length_app. lia.
  - unfold readerLoop_step. rewrite Hrd.
    destruct r as [line|err]; [|done]. simpl in Hwf. by rewrite Hwf.
Qed.

Lemma fatal_names_the_record_witness :
  exists pre,
    reads short_line = pre ++ [ReadRecord ["only-one-field"%string]] /\
    Forall (fun r => well_formed r = true) pre /\
    1 = wrap64 (len pre + 1) /\
    readerLoop_step (state_of (final_of [] (flags_j 1 []) short_line))
    = Some (log_Fatal (LogFatalFields 1 1)
              (state_of (final_of [] (flags_j 1 []) short_line))).
Proof.
  exact (fatal_names_the_record sample_tiers (flags_j 1 []) short_line
           (final_of [] (flags_j 1 []) short_line) 1
           (ReadRecord ["only-one-field"%string]) []
           (final_of_reachable _ _ _) eq_refl eq_refl eq_refl).
Defined.

(** X13. Once a tier is set, [Set] never fails again: a later value
    that is a possible tier replaces it, and a later value that is not
    is accepted without error and leaves the earlier tier in place. *)
Theorem tier_once_set_never_fails possible v t :
  AzureTier_Set possible v {| val := Some t |}
  = (if bool_decide ((if String.eqb v "" then "Hot"%string else v)
                     ∈ possible)
     then {| val := Some (if String.eqb v "" then "Hot"%string else v) |}
     else {| val := Some t |},
     nil).
Proof.
  unfold AzureTier_Set.
  set (v' := if String.eqb v "" then "Hot"%string else v).
  destruct (find (fun x => String.eqb x v') possible) as [x|] eqn:Hf; simpl.
  - apply find_some in Hf as [Hin Heq]. apply String.eqb_eq in Heq. subst x.
    by rewrite bool_decide_eq_true_2 by (by apply list_elem_of_In).
  - rewrite bool_decide_eq_false_2; [done|].
    intros Hin%list_elem_of_In.
    pose proof (find_none _ _ Hf _ Hin) as Hne. simpl in Hne.
    by rewrite String.eqb_refl in Hne.
Qed.

(** X14. The container name has no '.', naming is idempotent, and a
    bucket name is its own container name exactly when it has no '.'. *)
Theorem container_name_normal bucket :
  no_dot (strings.ReplaceAll bucket "." "-") /\
  strings.ReplaceAll (strings.ReplaceAll bucket "." "-") "." "-"
  = strings.ReplaceAll bucket "." "-" /\
  (strings.ReplaceAll bucket "." "-" = bucket <-> no_dot bucket).
Proof.
  assert (forall b, no_dot b -> strings.ReplaceAll b "." "-" = b) as Hid.
  { unfold strings.ReplaceAll. induction b as [|c b IH]; intros Hb; [done|].
    rewrite replace_dot_cons. rewrite IH.
    - destruct (Ascii.eqb c ".") eqn:Hc; [|done].
      apply Ascii.eqb_eq in Hc. subst c. by destruct (Hb 0%nat).
    - intros i. apply (Hb (S i)). }
  split; [apply replace_dot_no_dot|]. split.
  - apply Hid, replace_dot_no_dot.
  - split; [|apply Hid]. intros <-. apply replace_dot_no_dot.
Qed.

(** ** Keys that decode to themselves, keys that do not decode *)

Lemma plain_cons c s :
  plain (String c s) <->
  c <> "%"%char /\ c <> "+"%char /\ plain s.
Proof.
  unfold plain. split.
  - intros H. destruct (H 0%nat) as [H1 H2]. simpl in *.
    repeat split; try congruence; apply (H (S i)).
  - intros (H1 & H2 & H3) [|i]; simpl; [split; congruence|apply H3].
Qed.

Lemma scan_of_plain s : forall n hp, plain s -> url.scan s n hp = inr (n, hp).
Proof.
  induction s as [|c s IH]; intros n hp Hp; [done|].
  apply plain_cons in Hp as (H1 & H2 & H3). simpl.
  destruct (Ascii.eqb_spec c "%"); [done|].
  destruct (Ascii.eqb_spec c "+"); [done|]. by apply IH.
Qed.

Lemma build_length_le s : (String.length (url.build s) <= String.length s)%nat.
Proof.
  induction s as [s IH] using string_strong_ind.
  destruct s as [|c rest]; [done|]. simpl.
  destruct (Ascii.eqb c "%").
  - destruct rest as [|a [|b rest']]; simpl; try lia.
    specialize (IH rest' ltac:(simpl; lia)). lia.
  - specialize (IH rest ltac:(simpl; lia)).
    destruct (Ascii.eqb c "+"); simpl; lia.
Qed.

Lemma build_fixed_plain s : url.build s = s -> plain s.
Proof.
  induction s as [|c s IH]; [by intros _ [|i]|]. simpl.
  destruct (Ascii.eqb_spec c "%") as [->|Hc].
  - destruct s as [|a [|b rest']]; try done. intros [= _ Hb].
    pose proof (build_length_le rest') as Hl. rewrite Hb in Hl. simpl in Hl. lia.
  - destruct (Ascii.eqb_spec c "+") as [->|Hp]; [done|].
    intros [= Hb]. apply plain_cons. auto.
Qed.

Lemma QueryUnescape_fixed key : url.QueryUnescape key = inl key <-> plain key.
Proof.
  split.
  - intros H. apply QueryUnescape_ok in H as [H _].
    by apply build_fixed_plain.
  - intros Hp. unfold url.QueryUnescape. by rewrite scan_of_plain.
Qed.

(** X15. [CopyFile] asks the source for the key exactly as it was
    submitted if and only if the key has neither '%' nor '+'; any other
    key is either changed by the decoding or rejected. *)
Theorem key_unchanged_iff_plain tier ans e bucket key :
  head (requests tier ans {| Bucket := bucket; Key := key |} e)
  = Some (S3GetObject bucket key)
  <-> plain key.
Proof.
  rewrite <- QueryUnescape_fixed.
  destruct (url.QueryUnescape key) as [d|bad] eqn:Hk.
  - rewrite (requests_decoded _ _ _ _ d) by done. simpl.
    split; intros H; by simplify_eq.
  - unfold requests, CopyFile. simpl. rewrite Hk. simpl. rewrite drop_all.
    split; intros H; by simplify_eq.
Qed.

Lemma scan_bad_tail t n hp :
  hex_pair t = false ->
  url.scan (String "%" t) n hp = inl (String.substring 0 3 (String "%" t)).
Proof.
  intros Ht. destruct t as [|a [|b rest]]; try done.
  cbn [url.scan Ascii.eqb Bool.eqb]. simpl in Ht. by rewrite Ht.
Qed.

(** X16. A key with a '%' that is not followed by two hex digits,
    after a part that decodes, does not decode: the error names the '%'
    and up to two bytes after it, and [CopyFile] returns that error
    wrapped, having asked the stores for nothing and logged nothing. *)
Theorem bad_escape_rejected tier ans e bucket s1 t d1 :
  url.QueryUnescape s1 = inl d1 -> hex_pair t = false ->
  let key := s1 +:+ String "%" t in
  let bad := EscapeError (String.substring 0 3 (String "%" t)) in
  url.QueryUnescape key = inr bad /\
  CopyFile tier ans {| Bucket := bucket; Key := key |} e
  = (Some (stacktraceError bad
             ("unable to url decode " +:+ bucket +:+ "/" +:+ key)), e).
Proof.
  intros H1 Ht. simpl.
  apply QueryUnescape_ok in H1 as [_ (n1 & hp1 & Hs1)].
  destruct (scan_app _ _ _ _ _ (String "%" t) Hs1) as [Hs _].
  assert (url.QueryUnescape (s1 +:+ String "%" t)
          = inr (EscapeError (String.substring 0 3 (String "%" t)))) as Hk.
  { unfold url.QueryUnescape. by rewrite Hs, scan_bad_tail. }
  split; [done|]. unfold CopyFile. simpl. by rewrite Hk.
Qed.

Lemma bad_escape_rejected_witness :
  url.QueryUnescape "a%20b%2" = inr (EscapeError "%2") /\
  CopyFile {| val := None |} stores_ok
           {| Bucket := "bucket"; Key := "a%20b%2" |} empty_env
  = (Some (stacktraceError (EscapeError "%2")
             "unable to url decode bucket/a%20b%2"), empty_env).
Proof.
  exact (bad_escape_rejected {| val := None |} stores_ok empty_env "bucket"
           "a%20b" "2" "a b" eq_refl eq_refl).
Defined.

Lemma scan_failure s : forall n hp bad,
  url.scan s n hp = inl bad ->
  exists s1 t n1 hp1,
    s = s1 +:+ String "%" t /\ url.scan s1 n hp = inr (n1, hp1) /\
    hex_pair t = false /\ bad = String.substring 0 3 (String "%" t).
Proof.
  induction s as [s IH] using string_strong_ind. intros n hp bad.
  destruct s as [|c rest]; [done|].
  destruct (Ascii.eqb_spec c "%") as [->|Hc].
  - destruct (hex_pair rest) eqn:Hh.
    + destruct rest as [|a [|b rest']]; try done. simpl in Hh.
      cbn [url.scan Ascii.eqb Bool.eqb]. rewrite Hh. intros H.
      apply IH in H as (s1 & t & n1 & hp1 & -> & Hs & Ht & ->);
        [|simpl; lia].
      exists (String "%" (String a (String b s1))), t, n1, hp1.
      split; [done|]. split; [|done].
      cbn [url.scan Ascii.eqb Bool.eqb]. by rewrite Hh.
    + rewrite scan_bad_tail by done. intros [= <-].
      by exists EmptyString, rest, n, hp.
  - simpl. destruct (Ascii.eqb_spec c "%"); [done|].
    destruct (Ascii.eqb c "+") eqn:Hp; intros H;
      apply IH in H as (s1 & t & n1 & hp1 & -> & Hs & Ht & ->);
      try (simpl; lia);
      exists (String c s1), t, n1, hp1; (split; [done|]); (split; [|done]);
      simpl; destruct (Ascii.eqb_spec c "%"); try done; by rewrite Hp.
Qed.

(** X17. Conversely, a key is rejected only for such a '%': it is a
    part that decodes, then a '%' not followed by two hex digits, and
    the error names that '%' and up to two bytes after it. *)
Theorem decode_failure_has_bad_escape key err :
  url.QueryUnescape key = inr err ->
  exists s1 t d1,
    key = s1 +:+ String "%" t /\ url.QueryUnescape s1 = inl d1 /\
    hex_pair t = false /\
    err = EscapeError (String.substring 0 3 (String "%" t)).
Proof.
  unfold url.QueryUnescape at 1.
  destruct (url.scan key 0 false) as [bad|[n hp]] eqn:Hs;
    [|by destruct (_ && _)].
  intros [= <-].
  apply scan_failure in Hs as (s1 & t & n1 & hp1 & -> & Hs1 & Ht & ->).
  assert (exists d1, url.QueryUnescape s1 = inl d1) as [d1 Hd].
  { unfold url.QueryUnescape. rewrite Hs1. destruct (_ && _); eauto. }
  by exists s1, t, d1.
Qed.

Lemma decode_failure_has_bad_escape_witness :
  exists s1 t d1,
    "%zz"%string = s1 +:+ String "%" t /\ url.QueryUnescape s1 = inl d1 /\
    hex_pair t = false /\
    EscapeError "%zz" = EscapeError (String.substring 0 3 (String "%" t)).
Proof.
  exact (decode_failure_has_bad_escape "%zz" (EscapeError "%zz") eq_refl).
Defined.

(** ** The counters, in range *)

Lemma outcomes_conserved inp s :
  Inv inp s ->
  outcomes (received s ++ results s)
  = total (fun w => outcomes (emitted w)) (workers s).
Proof.
  intros HI. pose proof (inv_count _ _ HI) as Hc.
  pose proof (inv_markers _ _ HI) as Hm.
  pose proof (markers_outcomes (received s ++ results s)) as Hmo.
  assert (total (fun w => length (emitted w)) (workers s)
          = (total (fun w => markers (emitted w)) (workers s)
             + total (fun w => outcomes (emitted w)) (workers s))%nat) as Ht.
  { rewrite <- total_plus. clear. induction (workers s) as [|w ws IH]; [done|].
    unfold total in *. simpl. rewrite IH.
    pose proof (markers_outcomes (emitted w)). lia. }
  lia.
Qed.

Lemma outcomes_received_le inp s :
  Inv inp s -> (outcomes (received s) <= length (reads inp))%nat.
Proof.
  intros HI. pose proof (outcomes_conserved _ _ HI) as Hc.
  rewrite outcomes_app in Hc.
  pose proof (pulled_total_le _ _ HI) as Hp.
  assert (total (fun w => outcomes (emitted w)) (workers s)
          <= pulled_total s)%nat; [|lia].
  apply total_le. eapply Forall_impl; [apply HI|]. intros w Hok. simpl.
  pose proof (worker_ok_copied _ _ Hok). unfold copied in *. lia.
Qed.

(** X18. The counters of the loop of [main] stay in range: for M
    records and N workers with M + N within an int, [seenOk] is the
    number of nil outcomes received, never above M, and never above
    [seen], which is never above M + N - 1; neither counter wraps
    around. *)
Theorem counters_in_range possible fl inp p ec ok seen :
  1 <= concurrency fl -> len (reads inp) + concurrency fl <= max_int ->
  reachable possible fl inp p ->
  main (state_of p) = Aggregating ec ok seen ->
  ok = Z.of_nat (successes (received (state_of p))) /\
  0 <= ok <= seen /\ ok <= len (reads inp) /\
  seen <= len (reads inp) + concurrency fl - 1.
Proof.
  intros H1 Hmax Hr Hm.
  assert (1 <= concurrency fl <= max_int) as HN.
  { unfold len in *. lia. }
  pose proof (reachable_agg _ _ _ _ HN Hr) as Ha.
  pose proof (reachable_inv _ _ _ _ Hr) as [HI _].
  unfold agg_ok in Ha. rewrite Hm in Ha.
  destruct Ha as (Hlen & Hec & Hok & Hx).
  pose proof (outcomes_received_le _ _ HI) as Hout.
  pose proof (markers_outcomes (received (state_of p))) as Hmo.
  pose proof (outcome_kinds (received (state_of p))) as Hk.
  unfold len, max_int in *.
  assert (ok = Z.of_nat (successes (received (state_of p)))) as Hok'.
  { rewrite Hok. apply wrap64_id. unfold min_int, max_int. lia. }
  destruct (exit_code p) as [[| |]|]; destruct Hx as [Hz Hseen];
    rewrite wrap64_id in Hseen by (unfold min_int, max_int; lia);
    repeat split; try done; lia.
Qed.

Lemma counters_in_range_witness :
  0 <= 1 <= 2 /\ 1 <= len (reads one_line) /\
  2 <= len (reads one_line) + 2 - 1.
Proof.
  refine (proj2 (counters_in_range sample_tiers (flags_j 2 []) one_line
                   (final_of two_workers_one_item (flags_j 2 []) one_line)
                   0 1 2 _ _ _ _)).
  - simpl. lia.
  - unfold max_int, len. simpl. lia.
  - apply final_of_reachable.
  - reflexivity.
Defined.

(** ** [-j] zero or negative *)

Lemma calls_kinds (l : list Call) :
  (count_if is_get l + count_if is_upload l + count_if is_close l
   = length l)%nat.
Proof.
  induction l as [|c l IH]; [done|]. change (c :: l) with ([c] ++ l).
  rewrite !count_if_app, !count_if_one, length_app.
  destruct c; simpl; lia.
Qed.

Lemma no_workers possible fl inp p :
  concurrency fl <= 0 ->
  reachable possible fl inp p -> workers (state_of p) = [].
Proof.
  intros HN. revert p.
  apply (reachable_trans_ind possible fl inp
           (fun q => workers (state_of q) = [])).
  - by destruct (start_main_state possible fl inp) as (_ & _ & Hw & _).
  - intros s q Hr Hw Ht. simpl in Hw.
    assert (concurrency fl <= max_int) as Hmax by (unfold max_int; lia).
    pose proof (reachable_spawn_ok _ _ _ _ Hmax Hr) as Hsp.
    pose proof (reachable_flags _ _ _ _ Hr) as Hf.
    unfold spawn_ok in Hsp. simpl in Hsp, Hf.
    destruct Ht; simpl; try done; try (by rewrite Hw).
    rewrite H in Hsp. rewrite Hw in Hsp. unfold len in Hsp. simpl in Hsp.
    rewrite Hf in *. lia.
Qed.

(** X19. With [-j 0] or a negative [-j] no worker is ever started: no
    request is made to either store, nothing is copied, and the process
    never exits with status 0. *)
Theorem nonpositive_j_does_nothing possible fl inp p :
  concurrency fl <= 0 ->
  reachable possible fl inp p ->
  workers (state_of p) = [] /\ calls (env (state_of p)) = [] /\
  exit_code p <> Some 0.
Proof.
  intros HN Hr. pose proof (no_workers _ _ _ _ HN Hr) as Hw.
  split; [done|]. split.
  - pose proof (reachable_InvCalls _ _ _ _ Hr) as [_ _ Hc Hu Hg].
    rewrite Hw in Hg. unfold total in Hg. simpl in Hg.
    pose proof (calls_kinds (calls (env (state_of p)))) as Hk.
    destruct (calls (env (state_of p))); [done|]. simpl in Hk. lia.
  - intros Hex.
    pose proof (reachable_exit_ok _ _ _ _ Hr) as He.
    pose proof (reachable_inv _ _ _ _ Hr) as [HI _].
    destruct p as [s|c s]; [done|]. simpl in *. simplify_eq.
    destruct He as [(_ & _ & l & res & Hrec & Hs)|[[? _]|[? _]]]; try done.
    pose proof (inv_markers _ _ HI) as Hmk.
    rewrite Hw, Hrec, !markers_app, markers_one, Hs in Hmk.
    unfold total in Hmk. simpl in Hmk. lia.
Qed.

Lemma nonpositive_j_does_nothing_witness :
  calls (env (state_of (final_of [MoveMain SetupOk; MoveMain SetupOk;
                                  MoveReader]
                          (flags_j 0 []) one_line))) = [].
Proof.
  refine (proj1 (proj2 (nonpositive_j_does_nothing sample_tiers (flags_j 0 [])
                          one_line _ _ _))).
  - simpl. lia.
  - apply final_of_reachable.
Defined.

(** ** A run can always be completed *)





(** X21. [String] and [Set] fit together: the text of a tier that
    [Set] accepted is accepted by [Set] again, from any earlier tier,
    and gives the same tier. *)
Theorem tier_string_round_trip possible v s' s0 :
  AzureTier_Set possible v {| val := None |} = (s', nil) ->
  AzureTier_Set possible (AzureTier_String s') s0 = (s', nil).
Proof.
  unfold AzureTier_Set at 1.
  set (v' := if String.eqb v "" then "Hot"%string else v).
  destruct (find (fun x => String.eqb x v') possible) as [x|] eqn:Hf;
    simpl; [|done].
  intros [= <-]. pose proof Hf as Hf'.
  apply find_some in Hf as [_ Heq]. apply String.eqb_eq in Heq. subst x.
  unfold AzureTier_String, AzureTier_Set. simpl.
  assert (String.eqb v' "" = false) as ->.
  { unfold v'. destruct (String.eqb v "") eqn:Hv; [done|exact Hv]. }
  by rewrite Hf'.
Qed.

Lemma tier_string_round_trip_witness :
  AzureTier_Set sample_tiers "Hot" {| val := Some "Cool"%string |}
  = ({| val := Some "Hot"%string |}, nil).
Proof.
  exact (tier_string_round_trip sample_tiers "" {| val := Some "Hot"%string |}
           {| val := Some "Cool"%string |} eq_refl).
Defined.
